(** * quantreo.features_engineering.trend: trend indicators

    A shallow embedding of [sma], [kama], [linear_slope] and
    [linear_slope_and_r2] with the two numba kernels they call, and the
    properties of their outputs.

    Numbers.  A float64 is modelled as a rational extended with the three
    IEEE special values; arithmetic on finite values is exact (no rounding,
    no overflow, no signed zero), arithmetic on special values follows
    IEEE 754.  NaN is pandas' missing-value marker.  Integers are Python's
    unbounded integers.  Finite values are compared with [Qeq]. *)

From Stdlib Require Import ZArith QArith Qabs Qminmax Lia Lqa List Bool String.
From Stdlib Require Import DecimalString.
Import ListNotations.

Open Scope string_scope.
Open Scope Z_scope.

Abbreviation length := Datatypes.length (only parsing).

(** ** Floats *)

Inductive float : Type :=
| Fin (q : Q)
| PInf
| NInf
| NaN.

Definition of_Z (z : Z) : float := Fin (inject_Z z).
Definition of_nat (n : nat) : float := of_Z (Z.of_nat n).

Definition feq (x y : float) : Prop :=
  match x, y with
  | Fin a, Fin b => (a == b)%Q
  | PInf, PInf | NInf, NInf | NaN, NaN => True
  | _, _ => False
  end.

Definition isnan (x : float) : bool :=
  match x with NaN => true | _ => false end.

Definition isinf (x : float) : bool :=
  match x with PInf | NInf => true | _ => false end.

Definition isfinite (x : float) : bool :=
  match x with Fin _ => true | _ => false end.

(** [x == 0.0] *)
Definition is_zero (x : float) : bool :=
  match x with Fin q => Qeq_bool q 0 | _ => false end.

Definition Qsign (q : Q) : comparison := (q ?= 0)%Q.

Definition fneg (x : float) : float :=
  match x with
  | Fin q => Fin (- q)
  | PInf => NInf
  | NInf => PInf
  | NaN => NaN
  end.

Definition fabs (x : float) : float :=
  match x with
  | Fin q => Fin (Qabs q)
  | PInf | NInf => PInf
  | NaN => NaN
  end.

Definition fadd (x y : float) : float :=
  match x, y with
  | NaN, _ | _, NaN => NaN
  | Fin a, Fin b => Fin (a + b)
  | PInf, NInf | NInf, PInf => NaN
  | PInf, _ | _, PInf => PInf
  | NInf, _ | _, NInf => NInf
  end.

Definition fsub (x y : float) : float := fadd x (fneg y).

(** An infinity scaled by a finite factor: the sign decides, zero gives NaN. *)
Definition inf_scaled (pos : bool) (q : Q) : float :=
  match Qsign q with
  | Eq => NaN
  | Gt => if pos then PInf else NInf
  | Lt => if pos then NInf else PInf
  end.

Definition fmul (x y : float) : float :=
  match x, y with
  | NaN, _ | _, NaN => NaN
  | Fin a, Fin b => Fin (a * b)
  | Fin a, PInf | PInf, Fin a => inf_scaled true a
  | Fin a, NInf | NInf, Fin a => inf_scaled false a
  | PInf, PInf | NInf, NInf => PInf
  | PInf, NInf | NInf, PInf => NInf
  end.

(** IEEE division: [x/0] is NaN for [x = 0] and an infinity otherwise. *)
Definition fdiv (x y : float) : float :=
  match x, y with
  | NaN, _ | _, NaN => NaN
  | Fin a, Fin b =>
      if Qeq_bool b 0 then
        match Qsign a with Eq => NaN | Gt => PInf | Lt => NInf end
      else Fin (a / b)
  | Fin _, (PInf | NInf) => Fin 0
  | PInf, Fin b => match Qsign b with Lt => NInf | _ => PInf end
  | NInf, Fin b => match Qsign b with Lt => PInf | _ => NInf end
  | (PInf | NInf), (PInf | NInf) => NaN
  end.

(** [x ** 2] *)
Definition fsquare (x : float) : float := fmul x x.

(** ** Exceptions *)

Inductive exn : Type :=
| ValueError (msg : string)
| KeyError (key : string)
| IndexError
| ZeroDivisionError.

Definition result (A : Type) : Type := (exn + A)%type.

Definition ret {A} (a : A) : result A := inr a.
Definition raise {A} (e : exn) : result A := inl e.
Definition bind {A B} (m : result A) (k : A -> result B) : result B :=
  match m with
  | inl e => inl e
  | inr a => k a
  end.

Notation "x <- m ;; k" := (bind m (fun x => k))
  (at level 61, m at next level, right associativity).
Notation "' pat <- m ;; k" := (bind m (fun x => match x with pat => k end))
  (at level 61, pat pattern, m at next level, right associativity).

(** Evaluate the elements of a loop or comprehension left to right; the
    first exception ends the evaluation. *)
Fixpoint mapM {A B} (f : A -> result B) (l : list A) : result (list B) :=
  match l with
  | [] => ret []
  | a :: l' => b <- f a ;; bs <- mapM f l' ;; ret (b :: bs)
  end.

(** ** numpy arrays *)

(** [np.sum] of a float array. *)
Definition np_sum (xs : list float) : float := fold_left fadd xs (Fin 0).

(** [np.sum] of an integer array. *)
Definition np_sum_int (xs : list Z) : Z := fold_left Z.add xs 0.

(** [np.mean] *)
Definition np_mean (xs : list float) : float :=
  fdiv (np_sum xs) (of_nat (length xs)).

(** [np.arange(n)] *)
Definition np_arange (n : nat) : list Z := map Z.of_nat (seq 0 n).

(** [np.full(n, v)] *)
Definition np_full {A} (n : nat) (v : A) : list A := repeat v n.

(** Element-wise binary operation on arrays (or index-aligned Series)
    of one length. *)
Fixpoint zip_with {A B C} (f : A -> B -> C) (xs : list A) (ys : list B) : list C :=
  match xs, ys with
  | x :: xs', y :: ys' => f x y :: zip_with f xs' ys'
  | _, _ => []
  end.

(** ** pandas *)

Section Frames.

Context {label : Type}.

Record Series : Type := mkSeries {
  s_index : list label;
  s_values : list float;
  s_name : string
}.

(** A table: the row labels and the named columns, each as long as the
    index. *)
Record DataFrame : Type := mkDataFrame {
  df_index : list label;
  df_columns : list (string * list float)
}.

Definition wf_frame (df : DataFrame) : Prop :=
  Forall (fun c => length (snd c) = length (df_index df)) (df_columns df).

Fixpoint lookup (col : string) (cols : list (string * list float)) : option (list float) :=
  match cols with
  | [] => None
  | (k, v) :: rest => if String.eqb k col then Some v else lookup col rest
  end.

(** [col in df.columns] *)
Definition has_column (df : DataFrame) (col : string) : bool :=
  match lookup col (df_columns df) with Some _ => true | None => false end.

(** [df[col]]: pandas raises [KeyError] for an absent column. *)
Definition getitem (df : DataFrame) (col : string) : result (list float) :=
  match lookup col (df_columns df) with
  | Some v => ret v
  | None => raise (KeyError col)
  end.

End Frames.

Arguments Series : clear implicits.
Arguments DataFrame : clear implicits.

(** [series.shift(k)]: values move [k] rows down and the first [k] rows
    become missing; a negative [k] moves them up. *)
Definition shift (k : Z) (xs : list float) : list float :=
  if k <? 0 then
    skipn (Z.to_nat (- k)) xs ++ repeat NaN (Nat.min (Z.to_nat (- k)) (length xs))
  else firstn (length xs) (repeat NaN (Z.to_nat k) ++ xs).

(** [series.fillna(v)] *)
Definition fillna (v : float) (xs : list float) : list float :=
  map (fun x => if isnan x then v else x) xs.

(** [series.rolling(window)]: the window is validated when the rolling
    object is built. *)
Definition rolling (window : Z) : result nat :=
  if window <? 0 then raise (ValueError "window must be an integer 0 or greater")
  else ret (Z.to_nat window).

(** The rows [i-w+1 .. i] of a column, cut at the first row. *)
Definition window_at (w i : nat) (xs : list float) : list float :=
  skipn (i + 1 - w) (firstn (i + 1) xs).

(** The observations of a window: rolling aggregations first turn
    infinities into missing values, and missing values are not counted. *)
Definition observations (win : list float) : list float :=
  filter isfinite win.

(** [rolling(w, min_periods=w).sum()] *)
Definition rolling_sum (w : nat) (xs : list float) : list float :=
  map (fun i =>
         let obs := observations (window_at w i xs) in
         if (w <=? length obs)%nat then np_sum obs else NaN)
      (seq 0 (length xs)).

(** [rolling(w).mean()]: [min_periods] defaults to the window. *)
Definition rolling_mean (w : nat) (xs : list float) : list float :=
  map (fun i =>
         let obs := observations (window_at w i xs) in
         if (w <=? length obs)%nat && (0 <? length obs)%nat
         then fdiv (np_sum obs) (of_nat (length obs)) else NaN)
      (seq 0 (length xs)).

(** [rolling(w).apply(func, raw=True)]: [func] is called on every window
    that holds at least [min_periods = w] observations. *)
Definition rolling_apply (w : nat) (func : list float -> result float)
    (xs : list float) : result (list float) :=
  mapM (fun i =>
          let win := window_at w i xs in
          if (w <=? length (observations win))%nat then func win else ret NaN)
       (seq 0 (length xs)).

(** [str(n)] for an integer. *)
Definition str (n : Z) : string := NilZero.string_of_int (Z.to_int n).

(** ** sma *)

Definition sma {label} (df : DataFrame label) (col : string) (window_size : Z)
  : result (Series label) :=
  if negb (has_column df col) then
    raise (ValueError ("The column '" ++ col ++ "' is not present in the DataFrame."))
  else
    column <- getitem df col ;;
    w <- rolling window_size ;;
    ret (mkSeries (df_index df) (rolling_mean w column) ("sma_" ++ str window_size)).

(** ** kama *)

(** Python's [a / b] for a float and an int. *)
Definition py_div (a : Q) (b : Z) : result float :=
  if b =? 0 then raise ZeroDivisionError else ret (Fin (a / inject_Z b)).

(** [arr[i]] for a numpy array: a negative index counts from the end.
    (Out of range numpy raises; no read below is out of range.) *)
Definition np_get (arr : list float) (i : Z) : float :=
  nth (Z.to_nat (if i <? 0 then i + Z.of_nat (length arr) else i)) arr NaN.

(** [arr[i] = v] for [0 <= i < len(arr)]. *)
Fixpoint np_set (arr : list float) (i : nat) (v : float) : list float :=
  match arr, i with
  | [] , _ => []
  | _ :: arr', O => v :: arr'
  | a :: arr', S i' => a :: np_set arr' i' v
  end.

(** [np.abs(a - b)] on aligned series. *)
Definition abs_diff (xs ys : list float) : list float :=
  zip_with (fun a b => fabs (fsub a b)) xs ys.

Definition kama_vol (close : list float) : list float :=
  abs_diff close (shift 1 close).

Definition kama_er_num (l1 : Z) (close : list float) : list float :=
  abs_diff close (shift l1 close).

Definition kama_er_den (w : nat) (close : list float) : list float :=
  rolling_sum w (kama_vol close).

Definition kama_efficiency_ratio (l1 : Z) (w : nat) (close : list float) : list float :=
  fillna (Fin 0) (zip_with fdiv (kama_er_num l1 close) (kama_er_den w close)).

Definition kama_sc (fast slow : float) (efficiency_ratio : list float) : list float :=
  map (fun er => fsquare (fadd (fmul er (fsub fast slow)) slow)) efficiency_ratio.

(** One iteration of the loop over [i]; the state is the array
    [kama_values] and the flag [first_value]. *)
Definition kama_step (sc close_values : list float)
    (st : list float * bool) (i : nat) : list float * bool :=
  let '(kama_values, first_value) := st in
  if isnan (nth i sc NaN) then (np_set kama_values i NaN, first_value)
  else if first_value then (np_set kama_values i (nth i close_values NaN), false)
  else
    let prev := np_get kama_values (Z.of_nat i - 1) in
    (np_set kama_values i
       (fadd prev (fmul (nth i sc NaN) (fsub (nth i close_values NaN) prev))),
     false).

Definition kama_loop (sc close_values : list float) : list float :=
  let n := length close_values in
  fst (fold_left (kama_step sc close_values) (seq 0 n) (np_full n NaN, true)).

Definition kama {label} (df : DataFrame label) (col : string) (l1 l2 l3 : Z)
  : result (Series label) :=
  if negb (has_column df col) then
    raise (ValueError ("Column '" ++ col ++ "' not found in DataFrame."))
  else
    close_values <- getitem df col ;;
    w <- rolling l1 ;;
    let efficiency_ratio := kama_efficiency_ratio l1 w close_values in
    fast <- py_div 2 (l2 + 1) ;;
    slow <- py_div 2 (l3 + 1) ;;
    let sc := kama_sc fast slow efficiency_ratio in
    ret (mkSeries (df_index df) (kama_loop sc close_values) "kama").

(** ** The numba kernels *)

(** numba compiles a scalar division under an error model: with the
    default one ([error_model='python']) a zero divisor raises
    [ZeroDivisionError], with [error_model='numpy'] the division gives the
    IEEE result.  A bare [@njit] selects the default. *)
Inductive error_model : Type := PythonErrors | NumpyErrors.

Definition njit_default : error_model := PythonErrors.

Definition njit_div (em : error_model) (a b : float) : result float :=
  match em with
  | PythonErrors => if is_zero b then raise ZeroDivisionError else ret (fdiv a b)
  | NumpyErrors => ret (fdiv a b)
  end.

(** [x * y] for the integer positions [x] and the values [y]. *)
Definition int_times (x : list Z) (y : list float) : list float :=
  zip_with (fun xi yi => fmul (of_Z xi) yi) x y.

Definition lsq_sum_x (n : nat) : Z := np_sum_int (np_arange n).
Definition lsq_sum_x2 (n : nat) : Z :=
  np_sum_int (map (fun xi => xi * xi) (np_arange n)).

Definition lsq_numerator (series : list float) : float :=
  let n := length series in
  let sum_y := np_sum series in
  let sum_xy := np_sum (int_times (np_arange n) series) in
  fsub (fmul (of_nat n) sum_xy) (fmul (of_Z (lsq_sum_x n)) sum_y).

Definition lsq_denominator (n : nat) : Z :=
  Z.of_nat n * lsq_sum_x2 n - lsq_sum_x n ^ 2.

(** [numerator / denominator], the slope division of both kernels. *)
Definition lsq_slope (em : error_model) (series : list float) : result float :=
  njit_div em (lsq_numerator series) (of_Z (lsq_denominator (length series))).

Definition _get_linear_regression_slope (em : error_model) (series : list float)
  : result float :=
  lsq_slope em series.

(** [np.sum((y - np.mean(y))**2)] *)
Definition SST (y : list float) : float :=
  np_sum (map (fun yi => fsquare (fsub yi (np_mean y))) y).

(** [np.sum((y - y_pred)**2)] *)
Definition SSR (y y_pred : list float) : float :=
  np_sum (zip_with (fun yi pi => fsquare (fsub yi pi)) y y_pred).

Definition _get_linear_regression_slope_and_r2 (em : error_model)
    (series : list float) : result (float * float) :=
  let n := length series in
  let x := np_arange n in
  let sum_y := np_sum series in
  slope <- lsq_slope em series ;;
  intercept <- njit_div em (fsub sum_y (fmul slope (of_Z (lsq_sum_x n)))) (of_nat n) ;;
  let y_pred := map (fun xi => fadd intercept (fmul slope (of_Z xi))) x in
  ratio <- njit_div em (SSR series y_pred) (SST series) ;;
  ret (slope, fsub (of_Z 1) ratio).

(** ** linear_slope *)

Definition linear_slope {label} (df : DataFrame label) (col : string)
    (window_size : Z) : result (Series label) :=
  column <- getitem df col ;;
  w <- rolling window_size ;;
  lin_slope <- rolling_apply w (_get_linear_regression_slope njit_default) column ;;
  ret (mkSeries (df_index df) lin_slope ("linear_slope_" ++ str window_size)).

(** ** linear_slope_and_r2 *)

(** [range(lo, hi)] *)
Definition range (lo hi : Z) : list Z :=
  map (fun k => lo + Z.of_nat k) (seq 0 (Z.to_nat (hi - lo))).

(** Python's resolution of a slice bound against a length. *)
Definition slice_bound (len i : Z) : Z :=
  Z.min len (Z.max 0 (if i <? 0 then i + len else i)).

(** [values[lo:hi]] *)
Definition py_slice (values : list float) (lo hi : Z) : list float :=
  let len := Z.of_nat (length values) in
  let a := slice_bound len lo in
  let b := slice_bound len hi in
  firstn (Z.to_nat (b - a)) (skipn (Z.to_nat a) values).

(** [arr[i] = v]: a negative index counts from the end, an index out of
    range raises [IndexError]. *)
Definition py_setitem (arr : list float) (i : Z) (v : float) : result (list float) :=
  let len := Z.of_nat (length arr) in
  let j := if i <? 0 then i + len else i in
  if (j <? 0) || (len <=? j) then raise IndexError
  else ret (np_set arr (Z.to_nat j) v).

Fixpoint foldM {A S} (f : S -> A -> result S) (l : list A) (s : S) : result S :=
  match l with
  | [] => ret s
  | a :: l' => s' <- f s a ;; foldM f l' s'
  end.

Definition r2_step (em : error_model) (window_size : Z) (values : list float)
    (st : list float * list float) (i : Z) : result (list float * list float) :=
  let '(slopes, r2s) := st in
  let window := py_slice values (i - window_size + 1) (i + 1) in
  '(slope, r2) <- _get_linear_regression_slope_and_r2 em window ;;
  slopes' <- py_setitem slopes i slope ;;
  r2s' <- py_setitem r2s i r2 ;;
  ret (slopes', r2s').

Definition linear_slope_and_r2 {label} (df : DataFrame label) (col : string)
    (window_size : Z) : result (DataFrame label) :=
  values <- getitem df col ;;
  let n := length values in
  let slopes := np_full n NaN in
  let r2s := np_full n NaN in
  '(slopes, r2s) <- foldM (r2_step njit_default window_size values)
                      (range (window_size - 1) (Z.of_nat n)) (slopes, r2s) ;;
  ret (mkDataFrame (df_index df)
         [("linear_slope_" ++ str window_size, slopes);
          ("linear_r2_" ++ str window_size, r2s)]).

(** ** The specification's reading of [sma] *)

(** The arithmetic mean of a window, with IEEE arithmetic. *)
Definition arithmetic_mean (xs : list float) : float :=
  fdiv (np_sum xs) (of_nat (length xs)).

(** Position [i] holds the mean of the positions [i-w+1 .. i] when all
    [w] of them exist, and is missing otherwise. *)
Definition sma_spec (w : nat) (xs : list float) (i : nat) : float :=
  if (w <=? i + 1)%nat then arithmetic_mean (firstn w (skipn (i + 1 - w) xs))
  else NaN.

(** The column [1, 2, ..., n] under the name [close], rows labelled from 0. *)
Definition counting_frame (n : nat) : DataFrame Z :=
  mkDataFrame (map Z.of_nat (seq 0 n)) [("close", map of_nat (seq 1 n))].

(** ** The specification's reading of the [kama] recurrence *)

(** No position before [i] has a defined smoothing constant. *)
Definition unseeded (sc : list float) (i : nat) : bool :=
  forallb (fun j => isnan (nth j sc NaN)) (seq 0 i).

(** What position [i] of the output [out] must hold: missing where the
    smoothing constant is undefined, the raw input at the first position
    where it is defined, the recurrence on the previous output after. *)
Definition kama_at (sc close out : list float) (i : nat) : float :=
  if isnan (nth i sc NaN) then NaN
  else if unseeded sc i then nth i close NaN
  else
    let prev := nth (i - 1) out NaN in
    fadd prev (fmul (nth i sc NaN) (fsub (nth i close NaN) prev)).

(** The constant [2/(l+1)] of an exponential average of length [l]. *)
Definition ema_constant (l : Z) : Q := 2 / inject_Z (l + 1).

(** The smoothing constants [kama] computes for a column. *)
Definition kama_smoothing (l1 l2 l3 : Z) (close : list float) : list float :=
  kama_sc (Fin (ema_constant l2)) (Fin (ema_constant l3))
    (kama_efficiency_ratio l1 (Z.to_nat l1) close).

(** ** Exact least squares, for the statements about the kernels *)

(** The sum of [f 0 .. f (n-1)]. *)
Fixpoint Qsum (f : nat -> Q) (n : nat) : Q :=
  match n with
  | O => 0
  | S n' => Qsum f n' + f n'
  end.

(** The position [k] as a rational. *)
Definition Qpos (k : nat) : Q := inject_Z (Z.of_nat k).

(** The array of the numbers [y 0 .. y (n-1)]. *)
Definition finite_series (y : nat -> Q) (n : nat) : list float :=
  map (fun k => Fin (y k)) (seq 0 n).

(** A perfectly linear column: [value[i] = a * i + b]. *)
Definition linear_column (a b : Q) (n : nat) : list float :=
  finite_series (fun i => a * Qpos i + b)%Q n.



(** The value [linear_slope] holds at row [i]: the least-squares quotient
    of the window when all its [w] rows are observations, missing
    otherwise. *)
Definition slope_at (w : nat) (xs : list float) (i : nat) : float :=
  let win := window_at w i xs in
  if (w <=? length (observations win))%nat
  then fdiv (lsq_numerator win) (of_Z (lsq_denominator (length win)))
  else NaN.

(** ** Row alignment *)

(** A series holds one value per row of the table, under the same row
    labels in the same order. *)
Definition aligned_series {label} (df : DataFrame label) (out : Series label) : Prop :=
  s_index out = df_index df /\
  length (s_values out) = length (df_index df).

(** A table holds one row per row of the input, under the same row
    labels in the same order. *)
Definition aligned_frame {label} (df out : DataFrame label) : Prop :=
  df_index out = df_index df /\ wf_frame out.

(** A table with the single column [close]. *)
Definition close_frame (values : list float) : DataFrame Z :=
  mkDataFrame (map Z.of_nat (seq 0 (length values))) [("close", values)].

(** ** Windows of numbers *)



(** * Properties *)

(** ** Lists and arrays *)

Lemma nth_map_seq_from {A} (f : nat -> A) (a n i : nat) (d : A) :
  (i < n)%nat -> nth i (map f (seq a n)) d = f (a + i)%nat.
Proof.
  intros Hi.
  rewrite (nth_indep _ d (f 0%nat)) by (rewrite length_map, length_seq; exact Hi).
  rewrite map_nth, seq_nth by exact Hi. reflexivity.
Qed.

Lemma nth_map_seq {A} (f : nat -> A) (n i : nat) (d : A) :
  (i < n)%nat -> nth i (map f (seq 0 n)) d = f i.
Proof. intros Hi. rewrite nth_map_seq_from by exact Hi. reflexivity. Qed.

Lemma length_zip_with {A B C} (f : A -> B -> C) xs ys :
  length (zip_with f xs ys) = Nat.min (length xs) (length ys).
Proof.
  revert ys. induction xs as [|x xs IH]; intros [|y ys]; simpl; auto.
Qed.

Lemma nth_zip_with {A B C} (f : A -> B -> C) xs ys i da db dc :
  (i < length xs)%nat -> (i < length ys)%nat ->
  nth i (zip_with f xs ys) dc = f (nth i xs da) (nth i ys db).
Proof.
  revert ys i. induction xs as [|x xs IH]; intros [|y ys] [|i]; simpl;
    intros Hx Hy; try lia; auto.
  apply IH; lia.
Qed.

Lemma length_np_set arr i v : length (np_set arr i v) = length arr.
Proof.
  revert i. induction arr as [|a arr IH]; intros [|i]; simpl; auto.
Qed.

Lemma nth_np_set_same arr i v :
  (i < length arr)%nat -> nth i (np_set arr i v) NaN = v.
Proof.
  revert i. induction arr as [|a arr IH]; intros [|i]; simpl; intros H;
    try lia; auto.
  apply IH; lia.
Qed.

Lemma nth_np_set_other arr i j v :
  i <> j -> nth j (np_set arr i v) NaN = nth j arr NaN.
Proof.
  revert i j. induction arr as [|a arr IH]; intros [|i] [|j]; simpl;
    intros H; try congruence; auto.
Qed.

Lemma filter_all {A} (f : A -> bool) l :
  forallb f l = true -> filter f l = l.
Proof.
  induction l as [|a l IH]; simpl; auto.
  intros H. apply andb_true_iff in H as [Ha Hl]. rewrite Ha, IH; auto.
Qed.

Lemma filter_short {A} (f : A -> bool) l :
  forallb f l = false -> (length (filter f l) < length l)%nat.
Proof.
  induction l as [|a l IH]; simpl; [discriminate|].
  assert (Hle : forall m : list A, (length (filter f m) <= length m)%nat).
  { induction m as [|b m IHm]; simpl; auto. destruct (f b); simpl; lia. }
  destruct (f a) eqn:Ha; simpl; intros H.
  - apply IH in H. lia.
  - specialize (Hle l). lia.
Qed.

Lemma filter_length_le' {A} (f : A -> bool) l :
  (length (filter f l) <= length l)%nat.
Proof.
  induction l as [|b m IHm]; simpl; auto. destruct (f b); simpl; lia.
Qed.

Lemma length_window_at w i xs :
  (i < length xs)%nat ->
  length (window_at w i xs) = Nat.min w (i + 1).
Proof.
  intros Hi. unfold window_at. rewrite length_skipn, length_firstn. lia.
Qed.

Lemma window_at_full w i xs :
  (w <= i + 1)%nat ->
  window_at w i xs = firstn w (skipn (i + 1 - w) xs).
Proof.
  intros Hw. unfold window_at.
  rewrite firstn_skipn_comm.
  replace (i + 1 - w + w)%nat with (i + 1)%nat by lia. reflexivity.
Qed.

(** ** Sums *)

Lemma fadd_NaN_r x : fadd x NaN = NaN.
Proof. destruct x; reflexivity. Qed.

Lemma fold_fadd_NaN l : fold_left fadd l NaN = NaN.
Proof. induction l as [|x l IH]; simpl; auto. Qed.

Lemma fold_fadd_In_NaN l acc : In NaN l -> fold_left fadd l acc = NaN.
Proof.
  revert acc. induction l as [|x l IH]; simpl; intros acc H; [contradiction|].
  destruct H as [H|H].
  - subst x. rewrite fadd_NaN_r. apply fold_fadd_NaN.
  - apply IH, H.
Qed.

Lemma np_sum_In_NaN l : In NaN l -> np_sum l = NaN.
Proof. apply fold_fadd_In_NaN. Qed.

(** ** Columns *)

Section Columns.

Context {label : Type}.
Implicit Types (df : DataFrame label).

Lemma has_column_false df col :
  has_column df col = false -> getitem df col = raise (KeyError col).
Proof.
  unfold has_column, getitem. destruct (lookup col (df_columns df)); [discriminate|auto].
Qed.

Lemma getitem_has_column df col xs :
  getitem df col = ret xs -> has_column df col = true.
Proof.
  unfold has_column, getitem. destruct (lookup col (df_columns df)); [auto|discriminate].
Qed.

Lemma lookup_In col cols xs :
  lookup col cols = Some xs -> In (col, xs) cols.
Proof.
  induction cols as [|[k v] cols IH]; simpl; [discriminate|].
  destruct (String.eqb k col) eqn:E.
  - apply String.eqb_eq in E. intros [= ->]. subst. auto.
  - auto.
Qed.

Lemma wf_frame_length df col xs :
  wf_frame df -> getitem df col = ret xs -> length xs = length (df_index df).
Proof.
  unfold wf_frame, getitem. intros Hwf H.
  destruct (lookup col (df_columns df)) as [v|] eqn:E; [|discriminate].
  injection H as ->. apply lookup_In in E.
  rewrite Forall_forall in Hwf. exact (Hwf _ E).
Qed.

End Columns.

(** ** sma *)

Lemma length_rolling_mean w xs : length (rolling_mean w xs) = length xs.
Proof. unfold rolling_mean. rewrite length_map, length_seq. reflexivity. Qed.

Lemma no_inf_finite_or_NaN l :
  Forall (fun x => isinf x = false) l ->
  forallb isfinite l = false -> In NaN l.
Proof.
  induction 1 as [|x l Hx Hl IH]; simpl; [discriminate|].
  destruct x; simpl in *; try discriminate; auto.
Qed.

Lemma Forall_firstn {A} (P : A -> Prop) n l : Forall P l -> Forall P (firstn n l).
Proof.
  revert l. induction n as [|n IH]; intros l H; simpl; [constructor|].
  destruct H; constructor; auto.
Qed.

Lemma Forall_skipn {A} (P : A -> Prop) n l : Forall P l -> Forall P (skipn n l).
Proof.
  revert l. induction n as [|n IH]; intros l H; simpl; [exact H|].
  destruct H; auto.
Qed.

Lemma rolling_mean_spec w xs i :
  Forall (fun x => isinf x = false) xs ->
  (i < length xs)%nat ->
  nth i (rolling_mean w xs) NaN = sma_spec w xs i.
Proof.
  intros Hinf Hi. unfold rolling_mean. rewrite nth_map_seq by exact Hi.
  unfold sma_spec, observations.
  pose proof (length_window_at w i xs Hi) as Hlen.
  destruct (Nat.leb_spec w (i + 1)) as [Hw|Hw].
  - rewrite window_at_full in * by exact Hw.
    set (win := firstn w (skipn (i + 1 - w) xs)) in *.
    destruct (forallb isfinite win) eqn:Hall.
    + rewrite filter_all by exact Hall.
      rewrite Hlen, Nat.min_l by lia. rewrite Nat.leb_refl. simpl.
      unfold arithmetic_mean. rewrite Hlen, Nat.min_l by lia.
      destruct w as [|w']; [|reflexivity].
      simpl. destruct win; [reflexivity|discriminate].
    + pose proof (filter_short _ _ Hall) as Hshort.
      destruct (Nat.leb_spec w (length (filter isfinite win))) as [H|H]; [lia|].
      simpl. unfold arithmetic_mean.
      rewrite np_sum_In_NaN; [reflexivity|].
      apply no_inf_finite_or_NaN; [|exact Hall].
      apply Forall_firstn, Forall_skipn, Hinf.
  - pose proof (filter_length_le' isfinite (window_at w i xs)) as Hle.
    destruct (Nat.leb_spec w (length (filter isfinite (window_at w i xs))));
      [lia|reflexivity].
Qed.

Lemma sma_returns {label} (df : DataFrame label) col window_size xs :
  getitem df col = ret xs -> 0 <= window_size ->
  sma df col window_size =
  ret (mkSeries (df_index df) (rolling_mean (Z.to_nat window_size) xs)
         ("sma_" ++ str window_size)).
Proof.
  intros Hcol Hw. unfold sma.
  rewrite (getitem_has_column _ _ _ Hcol), Hcol. simpl.
  unfold rolling. destruct (Z.ltb_spec window_size 0); [lia|reflexivity].
Qed.

(** C9.  For a column of numbers and missing values and a window [w >= 0],
    [sma] returns a series whose position [i] holds the arithmetic mean of
    the positions [i-w+1 .. i] when all [w] of them exist, and the missing
    marker otherwise.  For the column 1..10 and window 3 the first two
    outputs are missing, the third is 2 and the last is 9. *)
Theorem sma_is_windowed_mean :
  (forall (label : Type) (df : DataFrame label) col window_size xs,
      getitem df col = ret xs ->
      0 <= window_size ->
      Forall (fun x => isinf x = false) xs ->
      exists out,
        sma df col window_size = ret out /\
        length (s_values out) = length xs /\
        forall i, (i < length xs)%nat ->
          nth i (s_values out) NaN = sma_spec (Z.to_nat window_size) xs i)
  /\ (exists out,
        sma (counting_frame 10) "close" 3 = ret out /\
        nth 0 (s_values out) NaN = NaN /\
        nth 1 (s_values out) NaN = NaN /\
        feq (nth 2 (s_values out) NaN) (of_Z 2) /\
        feq (nth 9 (s_values out) NaN) (of_Z 9)).
Proof.
  split.
  - intros label df col window_size xs Hcol Hw Hinf.
    rewrite (sma_returns df col window_size xs Hcol Hw).
    eexists; split; [reflexivity|]. simpl. split.
    + apply length_rolling_mean.
    + intros i Hi. apply rolling_mean_spec; assumption.
  - eexists; split; [vm_compute; reflexivity|].
    simpl. repeat split; reflexivity.
Qed.

Lemma sma_is_windowed_mean_witness :
  exists out,
    sma (counting_frame 4) "close" 2 = ret out /\
    length (s_values out) = 4%nat /\
    forall i, (i < 4)%nat ->
      nth i (s_values out) NaN = sma_spec 2 (map of_nat (seq 1 4)) i.
Proof.
  apply (proj1 sma_is_windowed_mean Z (counting_frame 4) "close" 2
           (map of_nat (seq 1 4))).
  - reflexivity.
  - lia.
  - repeat constructor.
Defined.

(** C4.  When the requested column is absent, each of the four functions
    ends with an exception and produces no output: [sma] and [kama] raise
    the [ValueError] of their own check, [linear_slope] and
    [linear_slope_and_r2] the [KeyError] of the column lookup, which is
    the first thing they evaluate on the data. *)
Theorem absent_column_raises {label} (df : DataFrame label) col window_size l1 l2 l3 :
  has_column df col = false ->
  sma df col window_size =
    raise (ValueError ("The column '" ++ col ++ "' is not present in the DataFrame."))
  /\ kama df col l1 l2 l3 =
    raise (ValueError ("Column '" ++ col ++ "' not found in DataFrame."))
  /\ linear_slope df col window_size = raise (KeyError col)
  /\ linear_slope_and_r2 df col window_size = raise (KeyError col).
Proof.
  intros H. unfold sma, kama, linear_slope, linear_slope_and_r2.
  rewrite H, (has_column_false _ _ H). simpl. repeat split; reflexivity.
Qed.

Lemma absent_column_raises_witness :
  sma (counting_frame 3) "open" 30 =
    raise (ValueError "The column 'open' is not present in the DataFrame.")
  /\ kama (counting_frame 3) "open" 10 2 30 =
    raise (ValueError "Column 'open' not found in DataFrame.")
  /\ linear_slope (counting_frame 3) "open" 30 = raise (KeyError "open")
  /\ linear_slope_and_r2 (counting_frame 3) "open" 30 = raise (KeyError "open").
Proof.
  apply (absent_column_raises (counting_frame 3) "open" 30 10 2 30).
  reflexivity.
Defined.

(** ** The kama loop *)

Lemma unseeded_S sc k :
  unseeded sc (S k) = unseeded sc k && isnan (nth k sc NaN).
Proof.
  unfold unseeded. rewrite seq_S, forallb_app. simpl.
  rewrite andb_true_r. reflexivity.
Qed.

Lemma kama_at_np_set sc close arr k v j :
  (j < k)%nat ->
  kama_at sc close (np_set arr k v) j = kama_at sc close arr j.
Proof.
  intros Hj. unfold kama_at.
  rewrite nth_np_set_other by lia. reflexivity.
Qed.

Lemma np_get_pred arr k :
  (1 <= k)%nat -> np_get arr (Z.of_nat k - 1) = nth (k - 1) arr NaN.
Proof.
  intros Hk. unfold np_get.
  destruct (Z.ltb_spec (Z.of_nat k - 1) 0); [lia|].
  f_equal. lia.
Qed.

Lemma kama_steps sc close n k :
  (k <= n)%nat ->
  let st := fold_left (kama_step sc close) (seq 0 k) (np_full n NaN, true) in
  length (fst st) = n /\
  snd st = unseeded sc k /\
  (forall j, (k <= j)%nat -> nth j (fst st) NaN = NaN) /\
  (forall j, (j < k)%nat -> nth j (fst st) NaN = kama_at sc close (fst st) j).
Proof.
  induction k as [|k IH]; intros Hk; cbv zeta.
  - simpl. unfold np_full. rewrite repeat_length. repeat split; auto.
    + intros j _. apply nth_repeat.
    + intros j Hj. lia.
  - rewrite seq_S, fold_left_app. simpl.
    destruct (IH ltac:(lia)) as (Hlen & Hflag & Hrest & Hdone). clear IH.
    destruct (fold_left (kama_step sc close) (seq 0 k) (np_full n NaN, true))
      as [arr flag].
    simpl in Hlen, Hflag, Hrest, Hdone.
    assert (Hstep : forall v b,
               b = unseeded sc (S k) ->
               v = kama_at sc close (np_set arr k v) k ->
               let st := (np_set arr k v, b) in
               length (fst st) = n /\
               snd st = unseeded sc (S k) /\
               (forall j, (S k <= j)%nat -> nth j (fst st) NaN = NaN) /\
               (forall j, (j < S k)%nat ->
                          nth j (fst st) NaN = kama_at sc close (fst st) j)).
    { intros v b Hb Hv. simpl. repeat split.
      - rewrite length_np_set. exact Hlen.
      - exact Hb.
      - intros j Hj. rewrite nth_np_set_other by lia. apply Hrest. lia.
      - intros j Hj. destruct (Nat.eq_dec j k) as [->|Hne].
        + rewrite nth_np_set_same by lia. exact Hv.
        + rewrite nth_np_set_other by lia.
          rewrite kama_at_np_set by lia. apply Hdone. lia. }
    unfold kama_step.
    destruct (isnan (nth k sc NaN)) eqn:Hnan.
    + apply Hstep.
      * rewrite unseeded_S, Hnan, <- Hflag, andb_true_r. reflexivity.
      * unfold kama_at. rewrite Hnan. reflexivity.
    + destruct flag.
      * apply Hstep.
        -- rewrite unseeded_S, Hnan, <- Hflag. reflexivity.
        -- unfold kama_at. rewrite Hnan, <- Hflag. reflexivity.
      * assert (Hk1 : (1 <= k)%nat).
        { destruct k; [discriminate Hflag|lia]. }
        apply Hstep.
        -- rewrite unseeded_S, Hnan, <- Hflag. reflexivity.
        -- unfold kama_at. rewrite Hnan, <- Hflag.
           rewrite nth_np_set_other by lia.
           rewrite np_get_pred by exact Hk1. reflexivity.
Qed.

Lemma length_kama_loop sc close : length (kama_loop sc close) = length close.
Proof.
  unfold kama_loop.
  exact (proj1 (kama_steps sc close (length close) (length close) (le_n _))).
Qed.

Lemma kama_loop_at sc close i :
  (i < length close)%nat ->
  nth i (kama_loop sc close) NaN = kama_at sc close (kama_loop sc close) i.
Proof.
  intros Hi. unfold kama_loop.
  destruct (kama_steps sc close (length close) (length close) (le_n _))
    as (_ & _ & _ & H).
  apply H, Hi.
Qed.

(** ** The efficiency ratio *)

Lemma window_as_map (l : list float) a w :
  (a + w <= length l)%nat ->
  firstn w (skipn a l) = map (fun j => nth j l NaN) (seq a w).
Proof.
  intros H. apply (nth_ext _ _ NaN NaN).
  - rewrite length_firstn, length_skipn, length_map, length_seq. lia.
  - intros i Hi. rewrite length_firstn, length_skipn in Hi.
    rewrite nth_firstn.
    destruct (Nat.ltb_spec i w) as [Hiw|Hiw]; [|lia].
    rewrite nth_skipn, nth_map_seq_from by lia. reflexivity.
Qed.

Lemma np_sum_snoc l x : np_sum (l ++ [x]) = fadd (np_sum l) x.
Proof. unfold np_sum. rewrite fold_left_app. reflexivity. Qed.

Lemma np_sum_map_snoc {A} (f : A -> float) l x :
  np_sum (map f (l ++ [x])) = fadd (np_sum (map f l)) (f x).
Proof. rewrite map_app. apply np_sum_snoc. Qed.

Lemma length_shift k xs : 0 <= k -> length (shift k xs) = length xs.
Proof.
  intros Hk. unfold shift. destruct (Z.ltb_spec k 0); [lia|].
  rewrite length_firstn, length_app, repeat_length. lia.
Qed.

Lemma nth_shift k xs i :
  0 <= k -> (i < length xs)%nat ->
  nth i (shift k xs) NaN =
  if (i <? Z.to_nat k)%nat then NaN else nth (i - Z.to_nat k) xs NaN.
Proof.
  intros Hk Hi. unfold shift. destruct (Z.ltb_spec k 0); [lia|].
  rewrite nth_firstn. destruct (Nat.ltb_spec i (length xs)); [|lia].
  destruct (Nat.ltb_spec i (Z.to_nat k)).
  - rewrite app_nth1 by (rewrite repeat_length; lia). apply nth_repeat.
  - rewrite app_nth2 by (rewrite repeat_length; lia).
    rewrite repeat_length. reflexivity.
Qed.

Lemma length_abs_diff xs ys :
  length ys = length xs -> length (abs_diff xs ys) = length xs.
Proof. intros H. unfold abs_diff. rewrite length_zip_with. lia. Qed.

Lemma length_kama_vol close : length (kama_vol close) = length close.
Proof. apply length_abs_diff, length_shift. lia. Qed.

Lemma length_rolling_sum w xs : length (rolling_sum w xs) = length xs.
Proof. unfold rolling_sum. rewrite length_map, length_seq. reflexivity. Qed.

Lemma nth_abs_diff_shift k close i :
  0 <= k -> (i < length close)%nat ->
  nth i (abs_diff close (shift k close)) NaN =
  fabs (fsub (nth i close NaN)
          (if (i <? Z.to_nat k)%nat then NaN else nth (i - Z.to_nat k) close NaN)).
Proof.
  intros Hk Hi. unfold abs_diff.
  rewrite (nth_zip_with _ _ _ _ NaN NaN) by (rewrite ?length_shift; lia).
  rewrite nth_shift by assumption. reflexivity.
Qed.

Lemma abs_diff_finite x y :
  isfinite (fabs (fsub x y)) = true ->
  exists p q, x = Fin p /\ y = Fin q /\ fabs (fsub x y) = Fin (Qabs (p + - q)).
Proof.
  destruct x, y; simpl; try discriminate. intros _. eauto.
Qed.

(** A run of finite one-step differences bounds the net move over it. *)
Lemma telescope (c : nat -> float) a w :
  (forall j, (a <= j <= a + w)%nat ->
             isfinite (fabs (fsub (c j) (c (j - 1)%nat))) = true) ->
  exists qs qe d,
    c (a - 1)%nat = Fin qs /\ c (a + w)%nat = Fin qe /\
    np_sum (map (fun j => fabs (fsub (c j) (c (j - 1)%nat))) (seq a (S w))) = Fin d /\
    (Qabs (qe - qs) <= d)%Q.
Proof.
  induction w as [|w IH]; intros Hfin.
  - destruct (abs_diff_finite _ _ (Hfin a ltac:(lia))) as (p & q & Hp & Hq & Hv).
    exists q, p, (0 + Qabs (p + - q))%Q.
    rewrite Nat.add_0_r. repeat split; auto.
    + simpl. unfold np_sum. simpl. rewrite Hv. reflexivity.
    + unfold Qminus. lra.
  - destruct IH as (qs & qe & d & Hs & He & Hsum & Hle).
    { intros j Hj. apply Hfin. lia. }
    destruct (abs_diff_finite _ _ (Hfin (a + S w)%nat ltac:(lia)))
      as (p & q & Hp & Hq & Hv).
    replace (a + S w - 1)%nat with (a + w)%nat in Hq by lia.
    rewrite He in Hq. injection Hq as <-.
    exists qs, p, (d + Qabs (p + - qe))%Q.
    repeat split; auto.
    + rewrite seq_S, np_sum_map_snoc, Hsum, Hv. reflexivity.
    + pose proof (Qabs_triangle (p - qe) (qe - qs)) as Ht.
      assert (Heq : (p - qe + (qe - qs) == p - qs)%Q) by ring.
      rewrite Heq in Ht. unfold Qminus in *. lra.
Qed.

Lemma kama_vol_at close j :
  (j < length close)%nat ->
  nth j (kama_vol close) NaN =
  match j with
  | O => NaN
  | S j' => fabs (fsub (nth j close NaN) (nth j' close NaN))
  end.
Proof.
  intros Hj. unfold kama_vol. rewrite nth_abs_diff_shift by (lia || exact Hj).
  change (Z.to_nat 1) with 1%nat.
  destruct j as [|j']; simpl.
  - destruct (nth 0 close NaN); reflexivity.
  - rewrite Nat.sub_0_r. reflexivity.
Qed.

(** The denominator of the ratio is missing, or the sum over an empty
    window, or the sum over [w] finite one-step differences, which bounds
    the net move over the window. *)
Lemma er_den_cases close w i :
  (i < length close)%nat ->
  let den := nth i (kama_er_den w close) NaN in
  den = NaN \/
  (w = 0%nat /\ den = Fin 0) \/
  ((1 <= w <= i)%nat /\
   exists qs qe d,
     nth (i - w) close NaN = Fin qs /\ nth i close NaN = Fin qe /\
     den = Fin d /\ (Qabs (qe - qs) <= d)%Q).
Proof.
  intros Hi. cbv zeta. unfold kama_er_den, rolling_sum.
  rewrite nth_map_seq by (rewrite length_kama_vol; exact Hi).
  unfold observations. set (vol := kama_vol close).
  assert (Hvol : length vol = length close) by apply length_kama_vol.
  pose proof (length_window_at w i vol ltac:(lia)) as Hlen.
  pose proof (filter_length_le' isfinite (window_at w i vol)) as Hle.
  destruct (Nat.leb_spec w (length (filter isfinite (window_at w i vol))))
    as [Hobs|Hobs]; [|left; reflexivity].
  right.
  destruct (forallb isfinite (window_at w i vol)) eqn:Hall.
  2:{ apply filter_short in Hall. lia. }
  rewrite filter_all in * by exact Hall.
  destruct w as [|w'].
  - left. split; [reflexivity|].
    destruct (window_at 0 i vol); [reflexivity|simpl in Hlen; lia].
  - right. assert (Hw : (S w' <= i + 1)%nat) by lia.
    rewrite window_at_full in * by exact Hw.
    rewrite window_as_map in * by lia.
    set (a := (i + 1 - S w')%nat) in *.
    assert (Hfin : forall j, (a <= j <= a + w')%nat ->
                             isfinite (nth j vol NaN) = true).
    { intros j Hj. rewrite forallb_forall in Hall. apply Hall.
      apply in_map_iff. exists j. split; [reflexivity|]. apply in_seq. lia. }
    assert (Ha : (1 <= a)%nat).
    { destruct a as [|a'] eqn:Ea; [|lia].
      specialize (Hfin 0%nat ltac:(lia)). unfold vol in Hfin.
      rewrite kama_vol_at in Hfin by lia. discriminate. }
    assert (Hv : forall j, (a <= j <= a + w')%nat ->
                 nth j vol NaN =
                 fabs (fsub (nth j close NaN) (nth (j - 1) close NaN))).
    { intros j Hj. unfold vol. rewrite kama_vol_at by lia.
      destruct j as [|j']; [lia|]. simpl. rewrite Nat.sub_0_r. reflexivity. }
    destruct (telescope (fun j => nth j close NaN) a w')
      as (qs & qe & d & Hs & He & Hsum & Hbound).
    { intros j Hj. rewrite <- Hv by exact Hj. apply Hfin, Hj. }
    split; [lia|]. exists qs, qe, d.
    replace (i - S w')%nat with (a - 1)%nat by lia.
    assert (Hi' : i = (a + w')%nat) by lia.
    repeat split; auto.
    { rewrite Hi'. exact He. }
    rewrite <- Hsum. f_equal. apply map_ext_in.
    intros j Hj. apply in_seq in Hj. apply Hv. lia.
Qed.

Lemma abs_diff_Fin p q : fabs (fsub (Fin p) (Fin q)) = Fin (Qabs (p + - q)).
Proof. reflexivity. Qed.

Lemma fdiv_NaN_r x : fdiv x NaN = NaN.
Proof. destruct x; reflexivity. Qed.

Lemma Qsign_zero q : (q == 0)%Q -> Qsign q = Eq.
Proof. intros H. unfold Qsign. apply Qeq_alt, H. Qed.

Lemma fdiv_zero_zero a b :
  (a == 0)%Q -> (b == 0)%Q -> fdiv (Fin a) (Fin b) = NaN.
Proof.
  intros Ha Hb. simpl.
  rewrite (proj2 (Qeq_bool_iff b 0) Hb), (Qsign_zero _ Ha). reflexivity.
Qed.

Lemma fdiv_nonzero a b :
  ~ (b == 0)%Q -> fdiv (Fin a) (Fin b) = Fin (a / b).
Proof.
  intros Hb. simpl. destruct (Qeq_bool b 0) eqn:E; [|reflexivity].
  apply Qeq_bool_iff in E. contradiction.
Qed.

Lemma length_kama_er_num l1 close :
  0 <= l1 -> length (kama_er_num l1 close) = length close.
Proof. intros H. apply length_abs_diff, length_shift, H. Qed.

Lemma length_kama_er_den w close : length (kama_er_den w close) = length close.
Proof. unfold kama_er_den. rewrite length_rolling_sum. apply length_kama_vol. Qed.

Lemma length_kama_efficiency_ratio l1 w close :
  0 <= l1 -> length (kama_efficiency_ratio l1 w close) = length close.
Proof.
  intros H. unfold kama_efficiency_ratio, fillna.
  rewrite length_map, length_zip_with, length_kama_er_num, length_kama_er_den by exact H.
  lia.
Qed.

Lemma kama_efficiency_ratio_at l1 w close i :
  0 <= l1 -> (i < length close)%nat ->
  nth i (kama_efficiency_ratio l1 w close) NaN =
  let r := fdiv (nth i (kama_er_num l1 close) NaN) (nth i (kama_er_den w close) NaN) in
  if isnan r then Fin 0 else r.
Proof.
  intros Hl Hi. unfold kama_efficiency_ratio, fillna.
  rewrite (nth_indep _ NaN ((fun x => if isnan x then Fin 0 else x) NaN)).
  2:{ rewrite length_map, length_zip_with, length_kama_er_num, length_kama_er_den
        by exact Hl. lia. }
  rewrite (map_nth (fun x => if isnan x then Fin 0 else x)).
  rewrite (nth_zip_with _ _ _ _ NaN NaN)
    by (rewrite ?length_kama_er_num, ?length_kama_er_den by exact Hl; exact Hi).
  reflexivity.
Qed.

(** The efficiency ratio is a number between 0 and 1 at every position,
    and it is exactly 0 wherever the denominator is zero or missing or the
    numerator is missing. *)
Lemma efficiency_ratio_range close l1 i :
  0 <= l1 -> (i < length close)%nat ->
  let num := nth i (kama_er_num l1 close) NaN in
  let den := nth i (kama_er_den (Z.to_nat l1) close) NaN in
  let er := nth i (kama_efficiency_ratio l1 (Z.to_nat l1) close) NaN in
  (exists e, er = Fin e /\ (0 <= e)%Q /\ (e <= 1)%Q) /\
  (is_zero den = true \/ den = NaN \/ num = NaN -> er = Fin 0).
Proof.
  intros Hl Hi. cbv zeta.
  rewrite kama_efficiency_ratio_at by assumption. cbv zeta.
  assert (Hzero : exists e : Q, Fin 0 = Fin e /\ (0 <= e)%Q /\ (e <= 1)%Q).
  { exists 0%Q. repeat split; lra. }
  unfold kama_er_num. rewrite nth_abs_diff_shift by assumption.
  set (w := Z.to_nat l1).
  destruct (er_den_cases close w i Hi) as [Hden|[[Hw Hden]|[Hw Hden]]].
  - rewrite Hden, fdiv_NaN_r. simpl. split; auto.
  - rewrite Hden, Hw. change (i <? 0)%nat with false. cbv iota.
    rewrite Nat.sub_0_r.
    assert (Hr : isnan (fdiv (fabs (fsub (nth i close NaN) (nth i close NaN))) (Fin 0))
                 = true).
    { destruct (nth i close NaN); try reflexivity.
      rewrite abs_diff_Fin, fdiv_zero_zero; [reflexivity| |reflexivity].
      apply Qabs_case; intros; lra. }
    rewrite Hr. split; auto.
  - destruct Hden as (qs & qe & d & Hs & He & Hden & Hbound).
    destruct (Nat.ltb_spec i w) as [Hlt|_]; [lia|].
    rewrite Hs, He, Hden, abs_diff_Fin.
    pose proof (Qabs_nonneg (qe + - qs)) as Hnn.
    unfold Qminus in Hbound.
    destruct (Qeq_dec d 0) as [Hd|Hd].
    + rewrite fdiv_zero_zero; [simpl; split; auto| |exact Hd]. lra.
    + rewrite fdiv_nonzero by exact Hd. simpl isnan. cbv iota. split.
      * exists (Qabs (qe + - qs) / d)%Q. split; [reflexivity|].
        assert (Hpos : (0 < d)%Q) by lra. split.
        -- apply Qle_shift_div_l; [exact Hpos|]. lra.
        -- apply Qle_shift_div_r; [exact Hpos|]. lra.
      * intros [Hz|[Hn|Hn]]; try discriminate.
        simpl in Hz. apply Qeq_bool_iff in Hz. contradiction.
Qed.

(** ** kama *)

Lemma nth_map_lt {A B} (f : A -> B) l i d d' :
  (i < length l)%nat -> nth i (map f l) d = f (nth i l d').
Proof.
  intros Hi. rewrite (nth_indep _ d (f d')) by (rewrite length_map; exact Hi).
  apply map_nth.
Qed.

Lemma py_div_ema l : l + 1 <> 0 -> py_div 2 (l + 1) = ret (Fin (ema_constant l)).
Proof.
  intros H. unfold py_div. destruct (Z.eqb_spec (l + 1) 0); [contradiction|reflexivity].
Qed.

Lemma kama_returns {label} (df : DataFrame label) col l1 l2 l3 close :
  getitem df col = ret close ->
  0 <= l1 -> l2 + 1 <> 0 -> l3 + 1 <> 0 ->
  kama df col l1 l2 l3 =
  ret (mkSeries (df_index df) (kama_loop (kama_smoothing l1 l2 l3 close) close) "kama").
Proof.
  intros Hcol Hl1 Hl2 Hl3. unfold kama.
  rewrite (getitem_has_column _ _ _ Hcol), Hcol. simpl.
  unfold rolling. destruct (Z.ltb_spec l1 0); [lia|]. simpl.
  rewrite !py_div_ema by assumption. reflexivity.
Qed.

Lemma length_kama_smoothing l1 l2 l3 close :
  0 <= l1 -> length (kama_smoothing l1 l2 l3 close) = length close.
Proof.
  intros H. unfold kama_smoothing, kama_sc.
  rewrite length_map. apply length_kama_efficiency_ratio, H.
Qed.

Lemma kama_smoothing_at l1 l2 l3 close i e :
  0 <= l1 -> (i < length close)%nat ->
  nth i (kama_efficiency_ratio l1 (Z.to_nat l1) close) NaN = Fin e ->
  nth i (kama_smoothing l1 l2 l3 close) NaN =
  Fin ((e * (ema_constant l2 + - ema_constant l3) + ema_constant l3)
       * (e * (ema_constant l2 + - ema_constant l3) + ema_constant l3)).
Proof.
  intros Hl Hi He. unfold kama_smoothing, kama_sc.
  rewrite (nth_map_lt _ _ _ _ NaN) by (rewrite length_kama_efficiency_ratio; assumption).
  rewrite He. reflexivity.
Qed.





(** C3.  In [kama], at every position where the denominator of the
    efficiency ratio is zero, or the denominator or the numerator is
    missing (in particular where the value, or the value [l1] rows
    earlier, is missing or does not exist), the efficiency ratio is
    exactly 0, and [kama] returns its series without an exception. *)
Theorem kama_efficiency_ratio_fallback {label} (df : DataFrame label)
    col l1 l2 l3 close i :
  getitem df col = ret close ->
  0 <= l1 -> l2 + 1 <> 0 -> l3 + 1 <> 0 ->
  (i < length close)%nat ->
  let num := nth i (kama_er_num l1 close) NaN in
  let den := nth i (kama_er_den (Z.to_nat l1) close) NaN in
  let er := nth i (kama_efficiency_ratio l1 (Z.to_nat l1) close) NaN in
  kama df col l1 l2 l3 =
    ret (mkSeries (df_index df)
           (kama_loop (kama_smoothing l1 l2 l3 close) close) "kama") /\
  (is_zero den = true \/ den = NaN \/ num = NaN -> er = Fin 0) /\
  (nth i close NaN = NaN \/ (i < Z.to_nat l1)%nat \/
   nth (i - Z.to_nat l1) close NaN = NaN -> num = NaN /\ er = Fin 0).
Proof.
  intros Hcol Hl1 Hl2 Hl3 Hi num den er.
  split; [apply kama_returns; assumption|].
  destruct (efficiency_ratio_range close l1 i Hl1 Hi) as [_ Hz].
  split; [exact Hz|].
  intros Hmiss.
  assert (Hnum : num = NaN).
  { unfold num, kama_er_num. rewrite nth_abs_diff_shift by assumption.
    destruct Hmiss as [H|[H|H]].
    - rewrite H. reflexivity.
    - destruct (Nat.ltb_spec i (Z.to_nat l1)); [|lia].
      destruct (nth i close NaN); reflexivity.
    - destruct (i <? Z.to_nat l1)%nat; rewrite ?H;
        destruct (nth i close NaN); reflexivity. }
  split; [exact Hnum|]. apply Hz. auto.
Qed.

(** On the constant column 5, 5, 5 with [l1 = 2] the denominator at
    row 2 is zero and the efficiency ratio there is 0. *)
Lemma kama_efficiency_ratio_fallback_witness :
  let close := [Fin 5; Fin 5; Fin 5] in
  is_zero (nth 2 (kama_er_den (Z.to_nat 2) close) NaN) = true /\
  nth 2 (kama_efficiency_ratio 2 (Z.to_nat 2) close) NaN = Fin 0 /\
  exists out, kama (close_frame close) "close" 2 2 30 = ret out.
Proof.
  intros close.
  destruct (kama_efficiency_ratio_fallback (close_frame close)
              "close" 2 2 30 close 2%nat) as (Hret & Hzero & _).
  - reflexivity.
  - lia.
  - lia.
  - lia.
  - simpl. lia.
  - split; [reflexivity|]. split.
    + apply Hzero. left. reflexivity.
    + eexists. exact Hret.
Defined.

Lemma kama_smoothing_defined l1 l2 l3 close i :
  0 <= l1 -> (i < length close)%nat ->
  exists s, nth i (kama_smoothing l1 l2 l3 close) NaN = Fin s.
Proof.
  intros Hl Hi.
  destruct (efficiency_ratio_range close l1 i Hl Hi) as [(e & He & _) _].
  rewrite (kama_smoothing_at l1 l2 l3 close i e Hl Hi He). eauto.
Qed.

(** C2.  The loop of [kama] is one forward pass over the column: at a
    position with a defined smoothing constant its output is the raw
    input value when no earlier position has a defined smoothing constant,
    and [KAMA[i-1] + sc[i] * (value[i] - KAMA[i-1])] when one has.  [kama]
    returns the result of that loop on its own smoothing constants, which
    are defined at every position, so the seed is position 0. *)
Theorem kama_seed_and_recurrence :
  (forall sc close i,
      (i < length close)%nat ->
      isnan (nth i sc NaN) = false ->
      let out := kama_loop sc close in
      (unseeded sc i = true -> nth i out NaN = nth i close NaN) /\
      (unseeded sc i = false ->
       nth i out NaN =
       fadd (nth (i - 1) out NaN)
         (fmul (nth i sc NaN) (fsub (nth i close NaN) (nth (i - 1) out NaN)))))
  /\ (forall (label : Type) (df : DataFrame label) col l1 l2 l3 close,
        getitem df col = ret close ->
        0 <= l1 -> l2 + 1 <> 0 -> l3 + 1 <> 0 ->
        let sc := kama_smoothing l1 l2 l3 close in
        exists out,
          kama df col l1 l2 l3 = ret out /\
          s_values out = kama_loop sc close /\
          length (s_values out) = length close /\
          forall i, (i < length close)%nat ->
            isnan (nth i sc NaN) = false /\
            (unseeded sc i = true <-> i = 0%nat)).
Proof.
  split.
  - intros sc close i Hi Hnan out.
    pose proof (kama_loop_at sc close i Hi) as Hat. fold out in Hat.
    unfold kama_at in Hat. rewrite Hnan in Hat.
    split; intros Hu; rewrite Hu in Hat; exact Hat.
  - intros label df col l1 l2 l3 close Hcol Hl1 Hl2 Hl3 sc.
    rewrite (kama_returns df col l1 l2 l3 close) by assumption.
    eexists. split; [reflexivity|]. simpl. fold sc.
    split; [reflexivity|]. split; [apply length_kama_loop|].
    intros i Hi.
    destruct (kama_smoothing_defined l1 l2 l3 close i Hl1 Hi) as [s Hs].
    fold sc in Hs. split; [rewrite Hs; reflexivity|]. split.
    + destruct i as [|i]; [reflexivity|].
      rewrite unseeded_S.
      destruct (kama_smoothing_defined l1 l2 l3 close i Hl1 ltac:(lia)) as [s' Hs'].
      fold sc in Hs'. rewrite Hs'. simpl. rewrite andb_false_r. discriminate.
    + intros ->. reflexivity.
Qed.

(** On the column 1, 2, 3: the first output is the first value, the
    second follows the recurrence. *)
Lemma kama_seed_and_recurrence_witness :
  let close := map of_nat (seq 1 3) in
  let sc := kama_smoothing 2 2 30 close in
  exists out,
    kama (counting_frame 3) "close" 2 2 30 = ret out /\
    nth 0 (s_values out) NaN = of_nat 1 /\
    nth 1 (s_values out) NaN =
    fadd (nth 0 (s_values out) NaN)
      (fmul (nth 1 sc NaN) (fsub (of_nat 2) (nth 0 (s_values out) NaN))).
Proof.
  intros close sc.
  destruct kama_seed_and_recurrence as [Hloop Hkama].
  destruct (Hkama Z (counting_frame 3) "close" 2 2 30 close)
    as (out & Hret & Hvals & _ & _).
  - reflexivity.
  - lia.
  - lia.
  - lia.
  - exists out. split; [exact Hret|]. rewrite Hvals. split.
    + apply (Hloop sc close 0%nat); [simpl; lia|reflexivity|reflexivity].
    + apply (Hloop sc close 1%nat); [simpl; lia|reflexivity|reflexivity].
Defined.

Lemma kama_loop_finite l1 l2 l3 close i :
  0 <= l1 ->
  Forall (fun x => isfinite x = true) close ->
  (i < length close)%nat ->
  exists q, nth i (kama_loop (kama_smoothing l1 l2 l3 close) close) NaN = Fin q.
Proof.
  intros Hl Hfin. set (sc := kama_smoothing l1 l2 l3 close).
  assert (Hclose : forall j, (j < length close)%nat ->
                             exists c, nth j close NaN = Fin c).
  { intros j Hj. rewrite Forall_forall in Hfin.
    specialize (Hfin _ (nth_In close NaN Hj)).
    destruct (nth j close NaN); try discriminate. eauto. }
  induction i as [|i IH]; intros Hi; rewrite kama_loop_at by exact Hi;
    unfold kama_at;
    destruct (kama_smoothing_defined l1 l2 l3 close _ Hl Hi) as [s Hs];
    fold sc in Hs; rewrite Hs; simpl isnan; cbv iota.
  - simpl. apply Hclose, Hi.
  - rewrite unseeded_S.
    destruct (kama_smoothing_defined l1 l2 l3 close i Hl ltac:(lia)) as [s' Hs'].
    fold sc in Hs'. rewrite Hs'. simpl isnan. rewrite andb_false_r.
    destruct (IH ltac:(lia)) as [p Hp]. destruct (Hclose _ Hi) as [c Hc].
    cbv zeta. replace (S i - 1)%nat with i by lia.
    rewrite Hp, Hc. simpl. eauto.
Qed.

(** C1.  The docstring of [kama] announces missing values in the first
    [l1 - 1] rows; the code produces none.  For every column of numbers,
    [kama] returns a series in which every position, the first [l1 - 1]
    included, holds a number, and position 0 holds the raw input value.
    The efficiency ratio has its missing values replaced by 0 before the
    smoothing constant is computed, so no smoothing constant is undefined
    and the loop seeds at position 0. *)
Theorem kama_output_has_no_missing_rows {label} (df : DataFrame label)
    col l1 l2 l3 close :
  getitem df col = ret close ->
  0 <= l1 -> l2 + 1 <> 0 -> l3 + 1 <> 0 ->
  Forall (fun x => isfinite x = true) close ->
  exists out,
    kama df col l1 l2 l3 = ret out /\
    nth 0 (s_values out) NaN = nth 0 close NaN /\
    forall i, (i < length close)%nat ->
      isnan (nth i (s_values out) NaN) = false.
Proof.
  intros Hcol Hl1 Hl2 Hl3 Hfin.
  rewrite (kama_returns df col l1 l2 l3 close) by assumption.
  eexists. split; [reflexivity|]. simpl. split.
  - destruct close as [|c close']; [reflexivity|].
    rewrite kama_loop_at by (simpl; lia). unfold kama_at.
    destruct (kama_smoothing_defined l1 l2 l3 (c :: close') 0 Hl1 ltac:(simpl; lia))
      as [s Hs].
    rewrite Hs. reflexivity.
  - intros i Hi.
    destruct (kama_loop_finite l1 l2 l3 close i Hl1 Hfin Hi) as [q Hq].
    rewrite Hq. reflexivity.
Qed.

(** The default parameters on the column 1..12: the first 9 rows, like
    all others, hold numbers. *)
Lemma kama_output_has_no_missing_rows_witness :
  exists out,
    kama (counting_frame 12) "close" 10 2 30 = ret out /\
    nth 0 (s_values out) NaN = nth 0 (map of_nat (seq 1 12)) NaN /\
    forall i, (i < length (map of_nat (seq 1 12)))%nat ->
      isnan (nth i (s_values out) NaN) = false.
Proof.
  apply (kama_output_has_no_missing_rows (counting_frame 12) "close" 10 2 30
           (map of_nat (seq 1 12))).
  - reflexivity.
  - lia.
  - lia.
  - lia.
  - repeat constructor.
Defined.

(** ** The least-squares denominator *)

Lemma np_sum_int_snoc l x : np_sum_int (l ++ [x]) = np_sum_int l + x.
Proof. unfold np_sum_int. rewrite fold_left_app. reflexivity. Qed.

Lemma np_arange_S n : np_arange (S n) = (np_arange n ++ [Z.of_nat n])%list.
Proof. unfold np_arange. rewrite seq_S, map_app. reflexivity. Qed.

Lemma lsq_sum_x_S n : lsq_sum_x (S n) = lsq_sum_x n + Z.of_nat n.
Proof. unfold lsq_sum_x. rewrite np_arange_S. apply np_sum_int_snoc. Qed.

Lemma lsq_sum_x2_S n :
  lsq_sum_x2 (S n) = lsq_sum_x2 n + Z.of_nat n * Z.of_nat n.
Proof.
  unfold lsq_sum_x2. rewrite np_arange_S, map_app. apply np_sum_int_snoc.
Qed.

Lemma lsq_sum_x_closed n :
  2 * lsq_sum_x n = Z.of_nat n * (Z.of_nat n - 1).
Proof.
  induction n as [|n IH]; [reflexivity|].
  rewrite lsq_sum_x_S, Nat2Z.inj_succ. lia.
Qed.

Lemma lsq_sum_x2_closed n :
  6 * lsq_sum_x2 n = (Z.of_nat n - 1) * Z.of_nat n * (2 * Z.of_nat n - 1).
Proof.
  induction n as [|n IH]; [reflexivity|].
  rewrite lsq_sum_x2_S, Nat2Z.inj_succ. lia.
Qed.

Lemma lsq_denominator_closed n :
  12 * lsq_denominator n =
  Z.of_nat n * Z.of_nat n * (Z.of_nat n - 1) * (Z.of_nat n + 1).
Proof.
  unfold lsq_denominator.
  pose proof (lsq_sum_x_closed n) as Hx.
  pose proof (lsq_sum_x2_closed n) as Hx2.
  rewrite Z.pow_2_r.
  set (sx := lsq_sum_x n) in *. set (sx2 := lsq_sum_x2 n) in *.
  set (m := Z.of_nat n) in *.
  assert (E1 : 12 * (m * sx2 - sx * sx) = 2 * m * (6 * sx2) - 3 * ((2 * sx) * (2 * sx)))
    by ring.
  rewrite E1, Hx, Hx2. ring.
Qed.

Lemma lsq_denominator_pos n : (2 <= n)%nat -> 0 < lsq_denominator n.
Proof.
  intros Hn. pose proof (lsq_denominator_closed n) as H.
  assert (0 < Z.of_nat n * Z.of_nat n * (Z.of_nat n - 1) * (Z.of_nat n + 1)).
  { repeat apply Z.mul_pos_pos; lia. }
  lia.
Qed.

Lemma is_zero_of_Z z : is_zero (of_Z z) = (z =? 0).
Proof.
  destruct z; reflexivity.
Qed.

Lemma njit_div_nonzero em a b :
  is_zero b = false -> njit_div em a b = ret (fdiv a b).
Proof. intros H. unfold njit_div. rewrite H. destruct em; reflexivity. Qed.

Lemma lsq_slope_returns em series :
  (2 <= length series)%nat ->
  lsq_slope em series =
  ret (fdiv (lsq_numerator series) (of_Z (lsq_denominator (length series)))).
Proof.
  intros Hn. unfold lsq_slope. apply njit_div_nonzero.
  rewrite is_zero_of_Z. pose proof (lsq_denominator_pos _ Hn).
  destruct (Z.eqb_spec (lsq_denominator (length series)) 0); [lia|reflexivity].
Qed.



(** ** Sums of finite series *)




Lemma Qsum_const c n : (Qsum (fun _ => c) n == Qpos n * c)%Q.
Proof.
  induction n as [|n IH]; simpl; [unfold Qpos; simpl; ring|].
  rewrite IH. unfold Qpos. rewrite Nat2Z.inj_succ. unfold Z.succ.
  rewrite inject_Z_plus. ring.
Qed.






Lemma length_finite_series y n : length (finite_series y n) = n.
Proof. unfold finite_series. rewrite length_map, length_seq. reflexivity. Qed.

Lemma finite_series_S y n :
  finite_series y (S n) = (finite_series y n ++ [Fin (y n)])%list.
Proof. unfold finite_series. rewrite seq_S, map_app. reflexivity. Qed.

Lemma np_sum_finite_series y n :
  exists s, np_sum (finite_series y n) = Fin s /\ (s == Qsum y n)%Q.
Proof.
  induction n as [|n (s & Hs & Heq)].
  - exists 0%Q. split; reflexivity.
  - exists (s + y n)%Q. split.
    + rewrite finite_series_S, np_sum_snoc, Hs. reflexivity.
    + simpl. rewrite Heq. reflexivity.
Qed.





Lemma inject_Z_nonzero z : z <> 0 -> ~ (inject_Z z == 0)%Q.
Proof.
  intros Hz H. apply Hz. unfold Qeq, inject_Z in H. simpl in H. lia.
Qed.

(** ** The kernels on finite series *)

Lemma bind_ret {A B} (a : A) (k : A -> result B) : bind (ret a) k = k a.
Proof. reflexivity. Qed.

Lemma Qpos_nonzero n : (1 <= n)%nat -> ~ (Qpos n == 0)%Q.
Proof. intros Hn. apply inject_Z_nonzero. lia. Qed.







(** ** Linear and constant windows *)











(** ** Rolling application of the slope kernel *)

Lemma mapM_returns {A B} (f : A -> result B) (g : A -> B) l :
  (forall a, In a l -> f a = ret (g a)) -> mapM f l = ret (map g l).
Proof.
  induction l as [|a l IH]; simpl; intros H; [reflexivity|].
  rewrite (H a (or_introl eq_refl)), bind_ret, IH by (intros; apply H; auto).
  reflexivity.
Qed.

Lemma mapM_length {A B} (f : A -> result B) l bs :
  mapM f l = ret bs -> length bs = length l.
Proof.
  revert bs. induction l as [|a l IH]; simpl; intros bs H.
  - injection H as <-. reflexivity.
  - destruct (f a) as [e|b]; [discriminate|]. simpl in H.
    destruct (mapM f l) as [e|bs']; [discriminate|]. simpl in H.
    injection H as <-. simpl. f_equal. apply IH. reflexivity.
Qed.

Lemma rolling_apply_slope w xs :
  (2 <= w)%nat ->
  rolling_apply w (_get_linear_regression_slope njit_default) xs
  = ret (map (slope_at w xs) (seq 0 (length xs))).
Proof.
  intros Hw. unfold rolling_apply. apply mapM_returns.
  intros i _. unfold slope_at. cbv zeta.
  destruct (Nat.leb_spec w (length (observations (window_at w i xs)))) as [H|H];
    [|reflexivity].
  unfold _get_linear_regression_slope. apply lsq_slope_returns.
  pose proof (filter_length_le' isfinite (window_at w i xs)).
  unfold observations in H. lia.
Qed.

Lemma linear_slope_returns {label} (df : DataFrame label) col window_size xs :
  getitem df col = ret xs -> 2 <= window_size ->
  linear_slope df col window_size =
  ret (mkSeries (df_index df)
         (map (slope_at (Z.to_nat window_size) xs) (seq 0 (length xs)))
         ("linear_slope_" ++ str window_size)).
Proof.
  intros Hcol Hw. unfold linear_slope. rewrite Hcol, bind_ret.
  unfold rolling. destruct (Z.ltb_spec window_size 0); [lia|]. rewrite bind_ret.
  rewrite rolling_apply_slope by lia. reflexivity.
Qed.

Lemma nth_finite_series y n j :
  (j < n)%nat -> nth j (finite_series y n) NaN = Fin (y j).
Proof.
  intros Hj. exact (nth_map_seq (fun k => Fin (y k)) n j NaN Hj).
Qed.

Lemma window_finite_series y n w i :
  (w <= i + 1)%nat -> (i < n)%nat ->
  window_at w i (finite_series y n)
  = finite_series (fun k => y (i + 1 - w + k)%nat) w.
Proof.
  intros Hw Hi. rewrite window_at_full by exact Hw.
  rewrite window_as_map by (rewrite length_finite_series; lia).
  apply (nth_ext _ _ NaN NaN).
  - rewrite length_map, length_seq, length_finite_series. reflexivity.
  - intros t Ht. rewrite length_map, length_seq in Ht.
    rewrite nth_map_seq_from, !nth_finite_series by lia. reflexivity.
Qed.

Lemma observations_finite_series y n :
  observations (finite_series y n) = finite_series y n.
Proof.
  unfold observations. apply filter_all. unfold finite_series.
  rewrite forallb_forall. intros x Hx. apply in_map_iff in Hx as (k & <- & _).
  reflexivity.
Qed.


(** ** The loop of linear_slope_and_r2 *)

Lemma py_slice_window values w i :
  1 <= w -> w - 1 <= i < Z.of_nat (length values) ->
  py_slice values (i - w + 1) (i + 1)
  = window_at (Z.to_nat w) (Z.to_nat i) values.
Proof.
  intros Hw Hi. unfold py_slice, slice_bound.
  destruct (Z.ltb_spec (i - w + 1) 0); [lia|].
  destruct (Z.ltb_spec (i + 1) 0); [lia|].
  rewrite !Z.max_r, !Z.min_r by lia.
  rewrite window_at_full by lia.
  f_equal; [lia|]. f_equal. lia.
Qed.

Lemma py_setitem_in_range arr i v :
  0 <= i < Z.of_nat (length arr) ->
  py_setitem arr i v = ret (np_set arr (Z.to_nat i) v).
Proof.
  intros Hi. unfold py_setitem.
  destruct (Z.ltb_spec i 0); [lia|].
  destruct (Z.ltb_spec i 0); [lia|].
  destruct (Z.leb_spec (Z.of_nat (length arr)) i); [lia|]. reflexivity.
Qed.

Lemma py_setitem_length arr i v arr' :
  py_setitem arr i v = ret arr' -> length arr' = length arr.
Proof.
  unfold py_setitem.
  destruct ((_ <? 0) || (_ <=? _))%bool; [discriminate|].
  intros H. injection H as <-. apply length_np_set.
Qed.

Lemma r2_step_length em w values s r i s' r' :
  r2_step em w values (s, r) i = ret (s', r') ->
  length s' = length s /\ length r' = length r.
Proof.
  unfold r2_step.
  destruct (_get_linear_regression_slope_and_r2 em _) as [e|[sl r2]];
    [discriminate|]. rewrite bind_ret.
  destruct (py_setitem s i sl) as [e|s1] eqn:Hs; [discriminate|]. rewrite bind_ret.
  destruct (py_setitem r i r2) as [e|r1] eqn:Hr; [discriminate|]. rewrite bind_ret.
  intros H. injection H as <- <-.
  split; eapply py_setitem_length; eassumption.
Qed.

Lemma r2_loop_length em w values l s r s' r' :
  foldM (r2_step em w values) l (s, r) = ret (s', r') ->
  length s' = length s /\ length r' = length r.
Proof.
  revert s r. induction l as [|i l IH]; intros s r H; cbn [foldM] in H.
  - injection H as <- <-. auto.
  - destruct (r2_step em w values (s, r) i) as [e|[s1 r1]] eqn:Hstep;
      [simpl in H; discriminate H|]. rewrite bind_ret in H.
    apply r2_step_length in Hstep as [Hs Hr].
    apply IH in H as [Hs' Hr']. split; congruence.
Qed.

Lemma r2_kernel_raises em series e :
  _get_linear_regression_slope_and_r2 em series = raise e ->
  e = ZeroDivisionError.
Proof.
  assert (Hdiv : forall a b e', njit_div em a b = raise e' -> e' = ZeroDivisionError).
  { intros a b e'. unfold njit_div. destruct em; [|discriminate].
    destruct (is_zero b); [|discriminate]. intros [= <-]. reflexivity. }
  unfold _get_linear_regression_slope_and_r2, lsq_slope.
  destruct (njit_div em (lsq_numerator series) _) as [e1|sl] eqn:H1.
  { intros [= <-]. eapply Hdiv, H1. }
  rewrite bind_ret.
  destruct (njit_div em (fsub _ _) _) as [e2|ic] eqn:H2.
  { intros [= <-]. eapply Hdiv, H2. }
  rewrite bind_ret.
  destruct (njit_div em (SSR _ _) _) as [e3|ra] eqn:H3.
  { intros [= <-]. eapply Hdiv, H3. }
  discriminate.
Qed.

Lemma in_range lo hi i : In i (range lo hi) <-> lo <= i < hi.
Proof.
  unfold range. rewrite in_map_iff. split.
  - intros (k & <- & Hk). apply in_seq in Hk. lia.
  - intros H. exists (Z.to_nat (i - lo)). split; [lia|]. apply in_seq. lia.
Qed.

Lemma r2_step_returns em w values s r i sl r2 :
  1 <= w ->
  length s = length values -> length r = length values ->
  w - 1 <= i < Z.of_nat (length values) ->
  _get_linear_regression_slope_and_r2 em
    (window_at (Z.to_nat w) (Z.to_nat i) values) = ret (sl, r2) ->
  r2_step em w values (s, r) i
  = ret (np_set s (Z.to_nat i) sl, np_set r (Z.to_nat i) r2).
Proof.
  intros Hw Hs Hr Hi Hk. unfold r2_step.
  rewrite py_slice_window, Hk, bind_ret by assumption.
  rewrite !py_setitem_in_range by lia. reflexivity.
Qed.

(** When the kernel returns on every window of the loop, the loop
    returns, having written the kernel's results at the rows it visited
    and nothing elsewhere. *)
Lemma r2_loop_returns em w values (K : nat -> float * float) l :
  1 <= w ->
  (forall i, In i l -> w - 1 <= i < Z.of_nat (length values)) ->
  (forall i, In i l ->
     _get_linear_regression_slope_and_r2 em
       (window_at (Z.to_nat w) (Z.to_nat i) values) = ret (K (Z.to_nat i))) ->
  forall s r,
    length s = length values -> length r = length values ->
    exists s' r',
      foldM (r2_step em w values) l (s, r) = ret (s', r') /\
      forall j,
        (In (Z.of_nat j) l ->
         nth j s' NaN = fst (K j) /\ nth j r' NaN = snd (K j)) /\
        (~ In (Z.of_nat j) l ->
         nth j s' NaN = nth j s NaN /\ nth j r' NaN = nth j r NaN).
Proof.
  intros Hw. induction l as [|i l IH]; intros Hin Hk s r Hs Hr.
  - exists s, r. split; [reflexivity|]. intros j. split; [intros []|auto].
  - pose proof (Hin i (or_introl eq_refl)) as Hi.
    pose proof (Hk i (or_introl eq_refl)) as Hki.
    destruct (K (Z.to_nat i)) as [sl r2] eqn:EK.
    cbn [foldM].
    rewrite (r2_step_returns em w values s r i sl r2) by assumption.
    rewrite bind_ret.
    destruct (IH ltac:(intros; apply Hin; right; assumption)
                 ltac:(intros; apply Hk; right; assumption)
                 (np_set s (Z.to_nat i) sl) (np_set r (Z.to_nat i) r2)
                 ltac:(rewrite length_np_set; exact Hs)
                 ltac:(rewrite length_np_set; exact Hr))
      as (s' & r' & Hfold & Hout).
    exists s', r'. split; [exact Hfold|].
    intros j. destruct (Hout j) as [Hvisited Hother].
    assert (Hhead : i = Z.of_nat j -> ~ In (Z.of_nat j) l ->
                    nth j s' NaN = fst (K j) /\ nth j r' NaN = snd (K j)).
    { intros -> Hnot. destruct (Hother Hnot) as [-> ->].
      rewrite Nat2Z.id in *. rewrite EK.
      rewrite !nth_np_set_same by lia. auto. }
    split.
    + intros [Hj|Hj].
      * destruct (in_dec Z.eq_dec (Z.of_nat j) l); auto.
      * auto.
    + intros Hnot.
      assert (Hne : i <> Z.of_nat j) by (intros ->; apply Hnot; left; reflexivity).
      assert (Hnl : ~ In (Z.of_nat j) l) by (intros H; apply Hnot; right; exact H).
      destruct (Hother Hnl) as [-> ->].
      rewrite !nth_np_set_other by lia. auto.
Qed.

(** When the kernel raises on a window of the loop, the loop raises. *)
Lemma r2_loop_raises em w values l i0 e0 :
  1 <= w ->
  (forall i, In i l -> w - 1 <= i < Z.of_nat (length values)) ->
  In i0 l ->
  _get_linear_regression_slope_and_r2 em
    (window_at (Z.to_nat w) (Z.to_nat i0) values) = raise e0 ->
  forall s r,
    length s = length values -> length r = length values ->
    foldM (r2_step em w values) l (s, r) = raise ZeroDivisionError.
Proof.
  intros Hw. induction l as [|i l IH]; intros Hin Hi0 Hk0 s r Hs Hr;
    [destruct Hi0|].
  pose proof (Hin i (or_introl eq_refl)) as Hi.
  cbn [foldM].
  destruct (_get_linear_regression_slope_and_r2 em
              (window_at (Z.to_nat w) (Z.to_nat i) values)) as [e|[sl r2]] eqn:Hk.
  - unfold r2_step. rewrite py_slice_window, Hk by assumption.
    apply r2_kernel_raises in Hk. subst e. reflexivity.
  - rewrite (r2_step_returns em w values s r i sl r2) by assumption.
    rewrite bind_ret. apply IH.
    + intros; apply Hin; right; assumption.
    + destruct Hi0 as [->|H]; [|exact H]. rewrite Hk in Hk0. discriminate.
    + exact Hk0.
    + rewrite length_np_set; exact Hs.
    + rewrite length_np_set; exact Hr.
Qed.

Lemma nth_np_full n j : nth j (np_full n NaN) NaN = NaN.
Proof.
  unfold np_full. destruct (Nat.lt_ge_cases j n).
  - apply nth_repeat.
  - apply nth_overflow. rewrite repeat_length. lia.
Qed.

Lemma linear_slope_and_r2_returns {label} (df : DataFrame label)
    col window_size values (K : nat -> float * float) :
  getitem df col = ret values ->
  1 <= window_size ->
  (forall i, (Z.to_nat window_size - 1 <= i < length values)%nat ->
     _get_linear_regression_slope_and_r2 njit_default
       (window_at (Z.to_nat window_size) i values) = ret (K i)) ->
  exists slopes r2s,
    linear_slope_and_r2 df col window_size =
      ret (mkDataFrame (df_index df)
             [("linear_slope_" ++ str window_size, slopes);
              ("linear_r2_" ++ str window_size, r2s)]) /\
    length slopes = length values /\ length r2s = length values /\
    forall i,
      ((Z.to_nat window_size - 1 <= i < length values)%nat ->
       nth i slopes NaN = fst (K i) /\ nth i r2s NaN = snd (K i)) /\
      ((i < Z.to_nat window_size - 1)%nat ->
       nth i slopes NaN = NaN /\ nth i r2s NaN = NaN).
Proof.
  intros Hcol Hw Hk. unfold linear_slope_and_r2. rewrite Hcol, bind_ret.
  set (n := length values).
  destruct (r2_loop_returns njit_default window_size values K
              (range (window_size - 1) (Z.of_nat n)) Hw)
    with (s := np_full n NaN) (r := np_full n NaN)
    as (s' & r' & Hfold & Hout).
  - intros i Hi. apply in_range in Hi. exact Hi.
  - intros i Hi. apply in_range in Hi. apply Hk. fold n. lia.
  - apply repeat_length.
  - apply repeat_length.
  - rewrite Hfold, bind_ret.
    destruct (r2_loop_length _ _ _ _ _ _ _ _ Hfold) as [Hs Hr].
    unfold np_full in Hs, Hr. rewrite repeat_length in Hs, Hr.
    exists s', r'. split; [reflexivity|]. split; [exact Hs|]. split; [exact Hr|].
    intros i. destruct (Hout i) as [Hvisited Hother]. split.
    + intros Hi. apply Hvisited, in_range. lia.
    + intros Hi. destruct Hother as [-> ->]; [rewrite in_range; lia|].
      rewrite nth_np_full. auto.
Qed.

Lemma r2_kernel_returns series :
  (2 <= length series)%nat -> is_zero (SST series) = false ->
  exists p, _get_linear_regression_slope_and_r2 njit_default series = ret p.
Proof.
  intros Hn Hsst. unfold _get_linear_regression_slope_and_r2.
  rewrite lsq_slope_returns, bind_ret by exact Hn.
  rewrite (njit_div_nonzero _ _ (of_nat (length series))).
  2:{ unfold of_nat. rewrite is_zero_of_Z.
      destruct (Z.eqb_spec (Z.of_nat (length series)) 0); [lia|reflexivity]. }
  rewrite bind_ret, njit_div_nonzero, bind_ret by exact Hsst.
  eexists. reflexivity.
Qed.

(** ** Linear inputs *)





(** ** Constant windows *)




(** ** Row alignment *)

Lemma sma_aligned {label} (df : DataFrame label) col values window_size out :
  wf_frame df -> getitem df col = ret values ->
  sma df col window_size = ret out -> aligned_series df out.
Proof.
  intros Hwf Hcol. unfold sma.
  rewrite (getitem_has_column _ _ _ Hcol), Hcol. simpl negb. cbv iota.
  rewrite bind_ret. destruct (rolling window_size) as [e|w]; [discriminate|].
  rewrite bind_ret. intros H. injection H as <-. split; simpl; [reflexivity|].
  rewrite length_rolling_mean. eapply wf_frame_length; eassumption.
Qed.

Lemma kama_aligned {label} (df : DataFrame label) col values l1 l2 l3 out :
  wf_frame df -> getitem df col = ret values ->
  kama df col l1 l2 l3 = ret out -> aligned_series df out.
Proof.
  intros Hwf Hcol. unfold kama.
  rewrite (getitem_has_column _ _ _ Hcol), Hcol. simpl negb. cbv iota.
  rewrite bind_ret. destruct (rolling l1) as [e|w]; [discriminate|].
  rewrite bind_ret. destruct (py_div 2 (l2 + 1)) as [e|fast]; [discriminate|].
  rewrite bind_ret. destruct (py_div 2 (l3 + 1)) as [e|slow]; [discriminate|].
  rewrite bind_ret. intros H. injection H as <-. split; simpl; [reflexivity|].
  rewrite length_kama_loop. eapply wf_frame_length; eassumption.
Qed.

Lemma linear_slope_aligned {label} (df : DataFrame label) col values window_size out :
  wf_frame df -> getitem df col = ret values ->
  linear_slope df col window_size = ret out -> aligned_series df out.
Proof.
  intros Hwf Hcol. unfold linear_slope. rewrite Hcol, bind_ret.
  destruct (rolling window_size) as [e|w]; [discriminate|]. rewrite bind_ret.
  destruct (rolling_apply w _ values) as [e|vals] eqn:Happ; [discriminate|].
  rewrite bind_ret. intros H. injection H as <-. split; simpl; [reflexivity|].
  unfold rolling_apply in Happ. apply mapM_length in Happ.
  rewrite Happ, length_seq. eapply wf_frame_length; eassumption.
Qed.

Lemma linear_slope_and_r2_aligned {label} (df : DataFrame label)
    col values window_size out :
  wf_frame df -> getitem df col = ret values ->
  linear_slope_and_r2 df col window_size = ret out -> aligned_frame df out.
Proof.
  intros Hwf Hcol. unfold linear_slope_and_r2. rewrite Hcol, bind_ret.
  destruct (foldM _ _ _) as [e|[slopes r2s]] eqn:Hfold; [discriminate|].
  rewrite bind_ret. intros H. injection H as <-.
  apply r2_loop_length in Hfold as [Hs Hr].
  unfold np_full in Hs, Hr. rewrite repeat_length in Hs, Hr.
  pose proof (wf_frame_length df col values Hwf Hcol) as Hlen.
  split; [reflexivity|]. unfold wf_frame. simpl.
  repeat constructor; simpl; congruence.
Qed.

(** C8.  For a table and one of its columns: whenever [sma], [kama],
    [linear_slope] or [linear_slope_and_r2] returns, its output has the
    row labels of the input in the same order and one value per row in
    every column; and the four return on valid parameters: [sma] for a
    window [>= 0], [kama] for [l1 >= 0] and [l2, l3] other than -1,
    [linear_slope] for a window [>= 2], [linear_slope_and_r2] for a
    window [>= 2] when no full window has a zero total sum of squares. *)
Theorem outputs_aligned_with_input {label} (df : DataFrame label) col values :
  wf_frame df ->
  getitem df col = ret values ->
  (forall w out, sma df col w = ret out -> aligned_series df out) /\
  (forall l1 l2 l3 out, kama df col l1 l2 l3 = ret out -> aligned_series df out) /\
  (forall w out, linear_slope df col w = ret out -> aligned_series df out) /\
  (forall w out, linear_slope_and_r2 df col w = ret out -> aligned_frame df out) /\
  (forall w, 0 <= w -> exists out, sma df col w = ret out) /\
  (forall l1 l2 l3, 0 <= l1 -> l2 + 1 <> 0 -> l3 + 1 <> 0 ->
     exists out, kama df col l1 l2 l3 = ret out) /\
  (forall w, 2 <= w -> exists out, linear_slope df col w = ret out) /\
  (forall w, 2 <= w ->
     (forall i, (Z.to_nat w - 1 <= i < length values)%nat ->
        is_zero (SST (window_at (Z.to_nat w) i values)) = false) ->
     exists out, linear_slope_and_r2 df col w = ret out).
Proof.
  intros Hwf Hcol.
  split; [intros w out; apply (sma_aligned df col values); assumption|].
  split; [intros l1 l2 l3 out; apply (kama_aligned df col values); assumption|].
  split; [intros w out; apply (linear_slope_aligned df col values); assumption|].
  split; [intros w out; apply (linear_slope_and_r2_aligned df col values);
          assumption|].
  split; [intros w Hw; rewrite (sma_returns df col w values Hcol Hw); eauto|].
  split.
  { intros l1 l2 l3 H1 H2 H3.
    rewrite (kama_returns df col l1 l2 l3 values) by assumption. eauto. }
  split.
  { intros w Hw. rewrite (linear_slope_returns df col w values Hcol Hw). eauto. }
  intros w Hw Hsst.
  set (K := fun i =>
              match _get_linear_regression_slope_and_r2 njit_default
                      (window_at (Z.to_nat w) i values) with
              | inr p => p
              | inl _ => (NaN, NaN)
              end).
  destruct (linear_slope_and_r2_returns df col w values K Hcol ltac:(lia))
    as (slopes & r2s & Hret & _).
  - intros i Hi. unfold K.
    destruct (r2_kernel_returns (window_at (Z.to_nat w) i values)) as [p Hp].
    + rewrite length_window_at by lia. lia.
    + apply Hsst, Hi.
    + rewrite Hp. reflexivity.
  - rewrite Hret. eauto.
Qed.

(** On the column 1, 3, 5, 7: the four functions return aligned
    outputs. *)
Lemma outputs_aligned_with_input_witness :
  let df := close_frame (linear_column 2 1 4) in
  (exists out, sma df "close" 2 = ret out /\ aligned_series df out) /\
  (exists out, kama df "close" 2 2 30 = ret out /\ aligned_series df out) /\
  (exists out, linear_slope df "close" 3 = ret out /\ aligned_series df out) /\
  (exists out, linear_slope_and_r2 df "close" 3 = ret out /\ aligned_frame df out).
Proof.
  intros df.
  destruct (outputs_aligned_with_input df "close" (linear_column 2 1 4))
    as (A1 & A2 & A3 & A4 & R1 & R2 & R3 & R4).
  - repeat constructor.
  - reflexivity.
  - split; [|split; [|split]].
    + destruct (R1 2 ltac:(lia)) as [out H]. exists out. split; [exact H|].
      exact (A1 _ _ H).
    + destruct (R2 2 2 30 ltac:(lia) ltac:(lia) ltac:(lia)) as [out H].
      exists out. split; [exact H|]. exact (A2 _ _ _ _ H).
    + destruct (R3 3 ltac:(lia)) as [out H]. exists out. split; [exact H|].
      exact (A3 _ _ H).
    + destruct (R4 3 ltac:(lia)) as [out H].
      * intros i Hi. change (Z.to_nat 3) with 3%nat in *.
        assert (Hc : i = 2%nat \/ i = 3%nat).
        { unfold linear_column in Hi. rewrite length_finite_series in Hi. lia. }
        destruct Hc as [-> | ->]; reflexivity.
      * exists out. split; [exact H|]. exact (A4 _ _ H).
Defined.

(** * Further properties *)

(** ** sma: missing rows and constant columns *)

Lemma forallb_false_In {A} (f : A -> bool) l x :
  In x l -> f x = false -> forallb f l = false.
Proof.
  intros Hin Hx. destruct (forallb f l) eqn:E; [|reflexivity].
  rewrite forallb_forall in E. rewrite (E x Hin) in Hx. discriminate.
Qed.

(** A window that is cut at the first row, or holds a value that is not a
    number, has fewer than [w] observations. *)
Lemma observations_short w i xs :
  (i < length xs)%nat ->
  (i + 1 < w)%nat \/
  (exists x, In x (window_at w i xs) /\ isfinite x = false) ->
  (length (observations (window_at w i xs)) < w)%nat.
Proof.
  intros Hi H. pose proof (length_window_at w i xs Hi) as Hlen.
  pose proof (filter_length_le' isfinite (window_at w i xs)) as Hle.
  unfold observations. destruct H as [H|(x & Hin & Hx)]; [lia|].
  pose proof (filter_short _ _ (forallb_false_In _ _ _ Hin Hx)). lia.
Qed.

Lemma repeat_finite_series c n : repeat (Fin c) n = finite_series (fun _ => c) n.
Proof.
  unfold finite_series. generalize 0%nat.
  induction n as [|n IH]; intros s; simpl; [reflexivity|].
  rewrite <- IH. reflexivity.
Qed.

(** The docstring of [sma]: the first [window - 1] entries are NaN; so is
    every row whose window holds a missing or infinite value. *)
Theorem sma_missing_rows {label} (df : DataFrame label) col window_size xs :
  getitem df col = ret xs ->
  0 <= window_size ->
  exists out,
    sma df col window_size = ret out /\
    forall i, (i < length xs)%nat ->
      (i + 1 < Z.to_nat window_size)%nat \/
      (exists x, In x (window_at (Z.to_nat window_size) i xs) /\
                 isfinite x = false) ->
      nth i (s_values out) NaN = NaN.
Proof.
  intros Hcol Hw. rewrite (sma_returns df col window_size xs Hcol Hw).
  eexists. split; [reflexivity|]. simpl. intros i Hi Hshort.
  unfold rolling_mean. rewrite nth_map_seq by exact Hi.
  pose proof (observations_short _ _ _ Hi Hshort) as H.
  destruct (Nat.leb_spec (Z.to_nat window_size)
              (length (observations (window_at (Z.to_nat window_size) i xs))));
    [lia|reflexivity].
Qed.

Lemma sma_missing_rows_witness :
  exists out,
    sma (close_frame [Fin 1; NaN; Fin 3; Fin 4]) "close" 2 = ret out /\
    nth 0 (s_values out) NaN = NaN /\
    nth 1 (s_values out) NaN = NaN /\
    nth 2 (s_values out) NaN = NaN.
Proof.
  destruct (sma_missing_rows (close_frame [Fin 1; NaN; Fin 3; Fin 4]) "close" 2
              [Fin 1; NaN; Fin 3; Fin 4]) as (out & Hret & Hrows).
  - reflexivity.
  - lia.
  - exists out. split; [exact Hret|]. repeat split.
    + apply Hrows; [simpl; lia|]. left. simpl. lia.
    + apply Hrows; [simpl; lia|]. right. exists NaN. simpl. auto.
    + apply Hrows; [simpl; lia|]. right. exists NaN. simpl. auto.
Defined.

Lemma rolling_mean_finite_series y n w i :
  (1 <= w)%nat -> (w - 1 <= i < n)%nat ->
  exists q,
    nth i (rolling_mean w (finite_series y n)) NaN = Fin q /\
    (q == Qsum (fun k => y (i + 1 - w + k)%nat) w / Qpos w)%Q.
Proof.
  intros Hw Hi. unfold rolling_mean.
  rewrite length_finite_series, nth_map_seq by lia.
  rewrite window_finite_series by lia.
  rewrite observations_finite_series, length_finite_series, Nat.leb_refl.
  destruct (Nat.ltb_spec 0 w) as [_|]; [|lia]. simpl andb. cbv iota.
  destruct (np_sum_finite_series (fun k => y (i + 1 - w + k)%nat) w)
    as (s & Hs & Es).
  rewrite Hs. exists (s / Qpos w)%Q. split.
  - apply (fdiv_nonzero s (Qpos w)), Qpos_nonzero, Hw.
  - rewrite Es. reflexivity.
Qed.

(** On a constant column every full window of [sma] gives that
    constant. *)
Theorem sma_constant_input {label} (df : DataFrame label) col window_size c n :
  getitem df col = ret (repeat (Fin c) n) ->
  1 <= window_size ->
  exists out,
    sma df col window_size = ret out /\
    forall i, (Z.to_nat window_size - 1 <= i < n)%nat ->
      exists q, nth i (s_values out) NaN = Fin q /\ (q == c)%Q.
Proof.
  intros Hcol Hw.
  rewrite (sma_returns df col window_size _ Hcol ltac:(lia)).
  eexists. split; [reflexivity|]. simpl. intros i Hi.
  rewrite repeat_finite_series.
  destruct (rolling_mean_finite_series (fun _ => c) n (Z.to_nat window_size) i
              ltac:(lia) Hi) as (q & Hq & Eq).
  exists q. split; [exact Hq|].
  rewrite Eq, Qsum_const. field. apply Qpos_nonzero. lia.
Qed.

Lemma sma_constant_input_witness :
  exists out,
    sma (close_frame (repeat (Fin 7) 5)) "close" 3 = ret out /\
    forall i, (Z.to_nat 3 - 1 <= i < 5)%nat ->
      exists q, nth i (s_values out) NaN = Fin q /\ (q == 7)%Q.
Proof.
  apply (sma_constant_input (close_frame (repeat (Fin 7) 5)) "close" 3 7 5%nat).
  - reflexivity.
  - lia.
Defined.

(** ** kama: the rows of the output *)

(** The loop of [kama] on its own smoothing constants, row by row. *)
Lemma kama_rows l1 l2 l3 close :
  0 <= l1 ->
  let out := kama_loop (kama_smoothing l1 l2 l3 close) close in
  ((0 < length close)%nat -> nth 0 out NaN = nth 0 close NaN) /\
  forall i, (S i < length close)%nat ->
    exists s,
      nth (S i) (kama_smoothing l1 l2 l3 close) NaN = Fin s /\
      nth (S i) out NaN =
      fadd (nth i out NaN)
        (fmul (Fin s) (fsub (nth (S i) close NaN) (nth i out NaN))).
Proof.
  intros Hl out. set (sc := kama_smoothing l1 l2 l3 close) in *. split.
  - intros Hn. unfold out. rewrite kama_loop_at by exact Hn. unfold kama_at.
    destruct (kama_smoothing_defined l1 l2 l3 close 0 Hl Hn) as [s Hs].
    fold sc in Hs. rewrite Hs. reflexivity.
  - intros i Hi.
    destruct (kama_smoothing_defined l1 l2 l3 close (S i) Hl Hi) as [s Hs].
    destruct (kama_smoothing_defined l1 l2 l3 close i Hl ltac:(lia)) as [s' Hs'].
    fold sc in Hs, Hs'. exists s. split; [exact Hs|].
    unfold out. rewrite (kama_loop_at sc close (S i) Hi). unfold kama_at.
    rewrite Hs, unseeded_S, Hs'. simpl isnan. rewrite andb_false_r. cbv iota zeta.
    replace (S i - 1)%nat with i by lia. reflexivity.
Qed.

(** With constant input every output of [kama] equals that constant. *)
Theorem kama_constant_input {label} (df : DataFrame label) col l1 l2 l3 c n :
  getitem df col = ret (repeat (Fin c) n) ->
  0 <= l1 -> l2 + 1 <> 0 -> l3 + 1 <> 0 ->
  exists out,
    kama df col l1 l2 l3 = ret out /\
    forall i, (i < n)%nat ->
      exists q, nth i (s_values out) NaN = Fin q /\ (q == c)%Q.
Proof.
  intros Hcol Hl1 Hl2 Hl3.
  rewrite (kama_returns df col l1 l2 l3 _ Hcol) by assumption.
  eexists. split; [reflexivity|]. simpl.
  destruct (kama_rows l1 l2 l3 (repeat (Fin c) n) Hl1) as [H0 Hstep].
  rewrite repeat_length in H0, Hstep.
  assert (Hc : forall j, (j < n)%nat -> nth j (repeat (Fin c) n) NaN = Fin c).
  { intros j Hj. rewrite repeat_finite_series. apply nth_finite_series, Hj. }
  induction i as [|i IH]; intros Hi.
  - exists c. split; [|reflexivity]. rewrite H0 by exact Hi. apply Hc, Hi.
  - destruct (IH ltac:(lia)) as (p & Hp & Ep).
    destruct (Hstep i Hi) as (s & _ & Hout).
    rewrite Hout, Hp, Hc by exact Hi.
    exists (p + s * (c + - p))%Q. split; [reflexivity|]. rewrite Ep. ring.
Qed.

Lemma kama_constant_input_witness :
  exists out,
    kama (close_frame (repeat (Fin 7) 4)) "close" 2 2 30 = ret out /\
    forall i, (i < 4)%nat ->
      exists q, nth i (s_values out) NaN = Fin q /\ (q == 7)%Q.
Proof.
  apply (kama_constant_input (close_frame (repeat (Fin 7) 4)) "close" 2 2 30 7 4%nat).
  - reflexivity.
  - lia.
  - lia.
  - lia.
Defined.





(** ** kama: missing values, parameters, warm-up *)

Lemma fadd_NaN_l x : fadd NaN x = NaN.
Proof. reflexivity. Qed.

Lemma kama_update_NaN_value prev s : fadd prev (fmul (Fin s) (fsub NaN prev)) = NaN.
Proof. destruct prev; reflexivity. Qed.

(** A missing value in the column makes every output of [kama] from that
    row on missing: the recurrence carries the NaN forward. *)
Theorem kama_missing_value_propagates {label} (df : DataFrame label)
    col l1 l2 l3 close i :
  getitem df col = ret close ->
  0 <= l1 -> l2 + 1 <> 0 -> l3 + 1 <> 0 ->
  (i < length close)%nat ->
  nth i close NaN = NaN ->
  exists out,
    kama df col l1 l2 l3 = ret out /\
    forall j, (i <= j < length close)%nat -> nth j (s_values out) NaN = NaN.
Proof.
  intros Hcol Hl1 Hl2 Hl3 Hi Hnan.
  rewrite (kama_returns df col l1 l2 l3 _ Hcol) by assumption.
  eexists. split; [reflexivity|]. simpl.
  destruct (kama_rows l1 l2 l3 close Hl1) as [H0 Hstep].
  induction j as [|j IH]; intros Hj.
  - assert (i = 0%nat) as -> by lia. rewrite H0 by lia. exact Hnan.
  - destruct (Hstep j ltac:(lia)) as (s & _ & Hout). rewrite Hout.
    destruct (Nat.eq_dec i (S j)) as [<-|Hne].
    + rewrite Hnan. apply kama_update_NaN_value.
    + rewrite IH by lia. reflexivity.
Qed.

Lemma kama_missing_value_propagates_witness :
  exists out,
    kama (close_frame [Fin 1; NaN; Fin 3; Fin 4]) "close" 2 2 30 = ret out /\
    forall j, (1 <= j < 4)%nat -> nth j (s_values out) NaN = NaN.
Proof.
  apply (kama_missing_value_propagates
           (close_frame [Fin 1; NaN; Fin 3; Fin 4]) "close" 2 2 30
           [Fin 1; NaN; Fin 3; Fin 4] 1%nat).
  - reflexivity.
  - lia.
  - lia.
  - lia.
  - simpl. lia.
  - reflexivity.
Defined.



(** During the first [l1] rows the numerator of the efficiency ratio is
    missing, the ratio falls back to 0, and the smoothing constant is the
    slow constant [(2/(l3+1))^2]. *)
Theorem kama_warm_up_smoothing l1 l2 l3 close i :
  0 <= l1 ->
  (i < length close)%nat -> (i < Z.to_nat l1)%nat ->
  nth i (kama_efficiency_ratio l1 (Z.to_nat l1) close) NaN = Fin 0 /\
  exists s,
    nth i (kama_smoothing l1 l2 l3 close) NaN = Fin s /\
    (s == ema_constant l3 * ema_constant l3)%Q.
Proof.
  intros Hl Hi Hwarm.
  destruct (efficiency_ratio_range close l1 i Hl Hi) as [_ Hz].
  assert (Her : nth i (kama_efficiency_ratio l1 (Z.to_nat l1) close) NaN = Fin 0).
  { apply Hz. right. right. unfold kama_er_num.
    rewrite nth_abs_diff_shift by assumption.
    destruct (Nat.ltb_spec i (Z.to_nat l1)); [|lia].
    destruct (nth i close NaN); reflexivity. }
  split; [exact Her|].
  rewrite (kama_smoothing_at l1 l2 l3 close i 0 Hl Hi Her).
  eexists. split; [reflexivity|]. ring.
Qed.

Lemma kama_warm_up_smoothing_witness :
  let close := map of_nat (seq 1 12) in
  nth 4 (kama_efficiency_ratio 10 (Z.to_nat 10) close) NaN = Fin 0 /\
  exists s,
    nth 4 (kama_smoothing 10 2 30 close) NaN = Fin s /\
    (s == ema_constant 30 * ema_constant 30)%Q.
Proof.
  apply (kama_warm_up_smoothing 10 2 30 (map of_nat (seq 1 12)) 4%nat).
  - lia.
  - simpl. lia.
  - simpl. lia.
Defined.

(** ** kama: trending windows *)







(** ** linear_slope: missing rows *)

(** The docstring of [linear_slope]: the first [window - 1] values are
    NaN; so is every row whose window holds a missing or infinite value,
    on which the kernel is not called. *)
Theorem linear_slope_missing_rows {label} (df : DataFrame label)
    col window_size xs :
  getitem df col = ret xs ->
  2 <= window_size ->
  exists out,
    linear_slope df col window_size = ret out /\
    forall i, (i < length xs)%nat ->
      (i + 1 < Z.to_nat window_size)%nat \/
      (exists x, In x (window_at (Z.to_nat window_size) i xs) /\
                 isfinite x = false) ->
      nth i (s_values out) NaN = NaN.
Proof.
  intros Hcol Hw. rewrite (linear_slope_returns df col window_size xs Hcol Hw).
  eexists. split; [reflexivity|]. simpl. intros i Hi Hshort.
  rewrite nth_map_seq by exact Hi. unfold slope_at. cbv zeta.
  pose proof (observations_short _ _ _ Hi Hshort) as H.
  destruct (Nat.leb_spec (Z.to_nat window_size)
              (length (observations (window_at (Z.to_nat window_size) i xs))));
    [lia|reflexivity].
Qed.

Lemma linear_slope_missing_rows_witness :
  exists out,
    linear_slope (close_frame [Fin 1; Fin 2; PInf; Fin 4; Fin 5]) "close" 2 = ret out /\
    nth 0 (s_values out) NaN = NaN /\
    nth 2 (s_values out) NaN = NaN /\
    nth 3 (s_values out) NaN = NaN.
Proof.
  destruct (linear_slope_missing_rows
              (close_frame [Fin 1; Fin 2; PInf; Fin 4; Fin 5]) "close" 2
              [Fin 1; Fin 2; PInf; Fin 4; Fin 5]) as (out & Hret & Hrows).
  - reflexivity.
  - lia.
  - exists out. split; [exact Hret|]. repeat split.
    + apply Hrows; [simpl; lia|]. left. simpl. lia.
    + apply Hrows; [simpl; lia|]. right. exists PInf. simpl. auto.
    + apply Hrows; [simpl; lia|]. right. exists PInf. simpl. auto.
Defined.

(** ** linear_slope_and_r2: what a returned table holds *)

Lemma r2_step_inv em w values s r i s1 r1 :
  1 <= w ->
  length s = length values -> length r = length values ->
  w - 1 <= i < Z.of_nat (length values) ->
  r2_step em w values (s, r) i = ret (s1, r1) ->
  exists sl r2,
    _get_linear_regression_slope_and_r2 em
      (window_at (Z.to_nat w) (Z.to_nat i) values) = ret (sl, r2) /\
    s1 = np_set s (Z.to_nat i) sl /\ r1 = np_set r (Z.to_nat i) r2.
Proof.
  intros Hw Hs Hr Hi Hstep.
  destruct (_get_linear_regression_slope_and_r2 em
              (window_at (Z.to_nat w) (Z.to_nat i) values)) as [e|[sl r2]] eqn:Hk.
  - unfold r2_step in Hstep. rewrite py_slice_window, Hk in Hstep by assumption.
    discriminate Hstep.
  - rewrite (r2_step_returns em w values s r i sl r2) in Hstep by assumption.
    injection Hstep as <- <-. eauto.
Qed.

Lemma r2_loop_kernels em w values l :
  1 <= w ->
  (forall i, In i l -> w - 1 <= i < Z.of_nat (length values)) ->
  forall s r s' r',
    length s = length values -> length r = length values ->
    foldM (r2_step em w values) l (s, r) = ret (s', r') ->
    forall i, In i l ->
      exists p, _get_linear_regression_slope_and_r2 em
                  (window_at (Z.to_nat w) (Z.to_nat i) values) = ret p.
Proof.
  intros Hw. induction l as [|i0 l IH]; intros Hin s r s' r' Hs Hr Hfold i Hi;
    [destruct Hi|].
  cbn [foldM] in Hfold.
  destruct (r2_step em w values (s, r) i0) as [e|[s1 r1]] eqn:Hstep;
    [discriminate Hfold|]. rewrite bind_ret in Hfold.
  destruct (r2_step_inv em w values s r i0 s1 r1 Hw Hs Hr
              (Hin i0 (or_introl eq_refl)) Hstep) as (sl & r2 & Hk & -> & ->).
  destruct Hi as [<-|Hi]; [eauto|].
  apply (IH ltac:(intros; apply Hin; right; assumption)
            (np_set s (Z.to_nat i0) sl) (np_set r (Z.to_nat i0) r2) s' r');
    try assumption; rewrite length_np_set; assumption.
Qed.

(** A table returned by the loop holds the kernel's pair at every row the
    loop visits and NaN at every other row. *)
Lemma linear_slope_and_r2_inv {label} (df : DataFrame label)
    col window_size values out :
  getitem df col = ret values ->
  1 <= window_size ->
  linear_slope_and_r2 df col window_size = ret out ->
  exists slopes r2s,
    out = mkDataFrame (df_index df)
            [("linear_slope_" ++ str window_size, slopes);
             ("linear_r2_" ++ str window_size, r2s)] /\
    length slopes = length values /\ length r2s = length values /\
    forall i,
      ((Z.to_nat window_size - 1 <= i < length values)%nat ->
       _get_linear_regression_slope_and_r2 njit_default
         (window_at (Z.to_nat window_size) i values)
       = ret (nth i slopes NaN, nth i r2s NaN)) /\
      ((i < Z.to_nat window_size - 1)%nat ->
       nth i slopes NaN = NaN /\ nth i r2s NaN = NaN).
Proof.
  intros Hcol Hw Hret.
  pose proof Hret as Hret'. unfold linear_slope_and_r2 in Hret'.
  rewrite Hcol, bind_ret in Hret'.
  destruct (foldM _ _ _) as [e|[s' r']] eqn:Hfold; [discriminate Hret'|].
  clear Hret'.
  set (K := fun i =>
              match _get_linear_regression_slope_and_r2 njit_default
                      (window_at (Z.to_nat window_size) i values) with
              | inr p => p
              | inl _ => (NaN, NaN)
              end).
  destruct (linear_slope_and_r2_returns df col window_size values K Hcol Hw)
    as (slopes & r2s & Hret2 & Hls & Hlr & Hout).
  { intros i Hi. unfold K.
    destruct (r2_loop_kernels njit_default window_size values _ Hw
                ltac:(intros j Hj; apply in_range in Hj; exact Hj)
                _ _ _ _ ltac:(apply repeat_length) ltac:(apply repeat_length)
                Hfold (Z.of_nat i) ltac:(apply in_range; lia)) as [p Hp].
    rewrite Nat2Z.id in Hp. rewrite Hp. reflexivity. }
  rewrite Hret in Hret2. injection Hret2 as ->.
  exists slopes, r2s. split; [reflexivity|]. split; [exact Hls|].
  split; [exact Hlr|]. intros i. destruct (Hout i) as [Hfull Hwarm].
  split; [|exact Hwarm]. intros Hi. destruct (Hfull Hi) as [-> ->].
  unfold K.
  destruct (r2_loop_kernels njit_default window_size values _ Hw
              ltac:(intros j Hj; apply in_range in Hj; exact Hj)
              _ _ _ _ ltac:(apply repeat_length) ltac:(apply repeat_length)
              Hfold (Z.of_nat i) ltac:(apply in_range; lia)) as [p Hp].
  rewrite Nat2Z.id in Hp. rewrite Hp. destruct p. reflexivity.
Qed.

(** The docstring of [linear_slope_and_r2]: in a returned table the
    first [window_size - 1] values of both columns are NaN. *)
Theorem linear_slope_and_r2_warm_up {label} (df : DataFrame label)
    col window_size values out :
  getitem df col = ret values ->
  1 <= window_size ->
  linear_slope_and_r2 df col window_size = ret out ->
  exists slopes r2s,
    df_columns out = [("linear_slope_" ++ str window_size, slopes);
                      ("linear_r2_" ++ str window_size, r2s)] /\
    forall i, (i < Z.to_nat window_size - 1)%nat ->
      nth i slopes NaN = NaN /\ nth i r2s NaN = NaN.
Proof.
  intros Hcol Hw Hret.
  destruct (linear_slope_and_r2_inv df col window_size values out Hcol Hw Hret)
    as (slopes & r2s & -> & _ & _ & Hrows).
  exists slopes, r2s. split; [reflexivity|].
  intros i Hi. apply (Hrows i), Hi.
Qed.

Lemma linear_slope_and_r2_warm_up_witness :
  exists out slopes r2s,
    linear_slope_and_r2 (close_frame (linear_column 2 1 4)) "close" 3 = ret out /\
    df_columns out = [("linear_slope_3", slopes); ("linear_r2_3", r2s)] /\
    forall i, (i < 2)%nat -> nth i slopes NaN = NaN /\ nth i r2s NaN = NaN.
Proof.
  eexists.
  destruct (linear_slope_and_r2_warm_up (close_frame (linear_column 2 1 4))
              "close" 3 (linear_column 2 1 4) _ eq_refl ltac:(lia) eq_refl)
    as (slopes & r2s & Hcols & Hrows).
  exists slopes, r2s. split; [reflexivity|]. split; [exact Hcols|exact Hrows].
Defined.

(** For a window of at least 1, [linear_slope_and_r2] raises nothing but
    the [KeyError] of an absent column and the [ZeroDivisionError] of the
    kernel: no index of the loop is out of range. *)
Theorem linear_slope_and_r2_exceptions {label} (df : DataFrame label)
    col window_size e :
  1 <= window_size ->
  linear_slope_and_r2 df col window_size = raise e ->
  e = KeyError col \/ e = ZeroDivisionError.
Proof.
  intros Hw. unfold linear_slope_and_r2.
  destruct (getitem df col) as [e0|values] eqn:Hcol.
  - unfold getitem in Hcol. destruct (lookup col (df_columns df)); [discriminate|].
    injection Hcol as <-. intros [= <-]. left. reflexivity.
  - rewrite bind_ret.
    destruct (foldM _ _ _) as [e1|[s' r']] eqn:Hfold; [|discriminate].
    intros [= <-]. right.
    assert (Hgen : forall l s r,
               (forall i, In i l -> window_size - 1 <= i < Z.of_nat (length values)) ->
               length s = length values -> length r = length values ->
               foldM (r2_step njit_default window_size values) l (s, r) = raise e1 ->
               e1 = ZeroDivisionError).
    { induction l as [|i l IH]; intros s r Hin Hs Hr H; [discriminate H|].
      cbn [foldM] in H.
      destruct (_get_linear_regression_slope_and_r2 njit_default
                  (window_at (Z.to_nat window_size) (Z.to_nat i) values))
        as [e2|[sl r2]] eqn:Hk.
      - unfold r2_step in H.
        rewrite py_slice_window, Hk in H
          by (assumption || apply Hin; left; reflexivity).
        injection H as <-. eapply r2_kernel_raises, Hk.
      - rewrite (r2_step_returns njit_default window_size values s r i sl r2) in H
          by (assumption || apply Hin; left; reflexivity).
        rewrite bind_ret in H.
        apply (IH (np_set s (Z.to_nat i) sl) (np_set r (Z.to_nat i) r2));
          try (rewrite length_np_set; assumption); try assumption.
        intros; apply Hin; right; assumption. }
    apply (Hgen _ _ _ ltac:(intros j Hj; apply in_range in Hj; exact Hj)
             ltac:(apply repeat_length) ltac:(apply repeat_length) Hfold).
Qed.

Lemma linear_slope_and_r2_exceptions_witness :
  ZeroDivisionError = KeyError "close" \/ ZeroDivisionError = ZeroDivisionError.
Proof.
  apply (linear_slope_and_r2_exceptions
           (close_frame [Fin 5; Fin 5; Fin 5]) "close" 3 ZeroDivisionError).
  - lia.
  - vm_compute. reflexivity.
Defined.

(** ** The two slope functions agree *)






(** ** The coefficient of determination lies in [0, 1] *)







(** ** When linear_slope_and_r2 raises *)










(** ** Degenerate windows and empty columns *)

Lemma mapM_raises {A B} (f : A -> result B) l e :
  (forall a, In a l -> f a = raise e \/ exists b, f a = ret b) ->
  (exists a, In a l /\ f a = raise e) ->
  mapM f l = raise e.
Proof.
  induction l as [|a l IH]; intros Hall (a0 & Hin & Ha0); [destruct Hin|].
  cbn [mapM].
  destruct (Hall a (or_introl eq_refl)) as [Ha|[b Hb]].
  - rewrite Ha. reflexivity.
  - rewrite Hb, bind_ret.
    rewrite IH; [reflexivity| |].
    + intros; apply Hall; right; assumption.
    + destruct Hin as [->|Hin]; [rewrite Hb in Ha0; discriminate|eauto].
Qed.

Lemma window_at_one xs i :
  (i < length xs)%nat -> window_at 1 i xs = [nth i xs NaN].
Proof.
  intros Hi. rewrite window_at_full, window_as_map by lia.
  replace (i + 1 - 1)%nat with i by lia. reflexivity.
Qed.

(** Windows of size 1 and 0.  With [window_size = 1] the denominator of
    the kernel is 0: [linear_slope] raises [ZeroDivisionError] as soon as
    the column holds a number (and returns NaN everywhere when it holds
    none), and [linear_slope_and_r2] raises on every column that is not
    empty.  With [window_size = 0] the first window of
    [linear_slope_and_r2] is empty and the call raises on every column. *)
Theorem degenerate_window_sizes {label} (df : DataFrame label) col values :
  getitem df col = ret values ->
  ((exists x, In x values /\ isfinite x = true) ->
   linear_slope df col 1 = raise ZeroDivisionError) /\
  (forallb (fun x => negb (isfinite x)) values = true ->
   linear_slope df col 1 =
   ret (mkSeries (df_index df) (repeat NaN (length values)) "linear_slope_1")) /\
  (values <> [] -> linear_slope_and_r2 df col 1 = raise ZeroDivisionError) /\
  linear_slope_and_r2 df col 0 = raise ZeroDivisionError.
Proof.
  intros Hcol.
  assert (Hf : forall i, (i < length values)%nat ->
             (let win := window_at 1 i values in
              if (1 <=? length (observations win))%nat
              then _get_linear_regression_slope njit_default win else ret NaN)
             = if isfinite (nth i values NaN) then raise ZeroDivisionError
               else ret NaN).
  { intros i Hi. cbv zeta. rewrite window_at_one by exact Hi.
    destruct (nth i values NaN); reflexivity. }
  split; [|split; [|split]].
  - intros (x & Hin & Hx). unfold linear_slope. rewrite Hcol, bind_ret.
    change (rolling 1) with (@ret nat 1%nat). rewrite bind_ret.
    unfold rolling_apply. rewrite (mapM_raises _ _ ZeroDivisionError); [reflexivity| |].
    + intros i Hi. apply in_seq in Hi. rewrite Hf by lia.
      destruct (isfinite (nth i values NaN)); eauto.
    + destruct (In_nth _ _ NaN Hin) as (i & Hi & Hnth).
      exists i. split; [apply in_seq; lia|]. rewrite Hf, Hnth, Hx by exact Hi.
      reflexivity.
  - intros Hnone. unfold linear_slope. rewrite Hcol, bind_ret.
    change (rolling 1) with (@ret nat 1%nat). rewrite bind_ret.
    unfold rolling_apply. rewrite (mapM_returns _ (fun _ => NaN)).
    + rewrite bind_ret. do 3 f_equal.
      generalize 0%nat. generalize (length values).
      induction n as [|n IH]; intros s; simpl; [reflexivity|].
      rewrite IH. reflexivity.
    + intros i Hi. apply in_seq in Hi. rewrite Hf by lia.
      rewrite forallb_forall in Hnone.
      assert (Hi' : (i < length values)%nat) by lia.
      specialize (Hnone _ (nth_In values NaN Hi')).
      destruct (isfinite (nth i values NaN)); [discriminate Hnone|reflexivity].
  - intros Hne. unfold linear_slope_and_r2. rewrite Hcol, bind_ret.
    rewrite (r2_loop_raises njit_default 1 values
               (range (1 - 1) (Z.of_nat (length values))) 0 ZeroDivisionError).
    + reflexivity.
    + lia.
    + intros j Hj. apply in_range in Hj. lia.
    + apply in_range. destruct values; [contradiction|simpl; lia].
    + change (Z.to_nat 1) with 1%nat. change (Z.to_nat 0) with 0%nat.
      rewrite window_at_one by (destruct values; [contradiction|simpl; lia]).
      reflexivity.
    + apply repeat_length.
    + apply repeat_length.
  - unfold linear_slope_and_r2. rewrite Hcol, bind_ret.
    unfold range.
    replace (Z.to_nat (Z.of_nat (length values) - (0 - 1)))
      with (S (length values)) by lia.
    cbn [seq map foldM]. unfold r2_step at 1.
    replace (py_slice values (0 - 1 + Z.of_nat 0 - 0 + 1) (0 - 1 + Z.of_nat 0 + 1))
      with (@nil float).
    + reflexivity.
    + change (0 - 1 + Z.of_nat 0 - 0 + 1) with 0.
      change (0 - 1 + Z.of_nat 0 + 1) with 0.
      unfold py_slice, slice_bound. change (0 <? 0) with false. cbv iota.
      change (Z.max 0 0) with 0. rewrite Z.min_r by lia. reflexivity.
Qed.

Lemma degenerate_window_sizes_witness :
  let df := close_frame [NaN; Fin 2; Fin 3] in
  linear_slope df "close" 1 = raise ZeroDivisionError /\
  linear_slope (close_frame [NaN; NaN]) "close" 1 =
    ret (mkSeries (df_index (close_frame [NaN; NaN])) [NaN; NaN] "linear_slope_1") /\
  linear_slope_and_r2 df "close" 1 = raise ZeroDivisionError /\
  linear_slope_and_r2 df "close" 0 = raise ZeroDivisionError.
Proof.
  intros df.
  destruct (degenerate_window_sizes df "close" [NaN; Fin 2; Fin 3] eq_refl)
    as (H1 & _ & H3 & H4).
  destruct (degenerate_window_sizes (close_frame [NaN; NaN]) "close" [NaN; NaN]
              eq_refl) as (_ & H2 & _ & _).
  split; [|split; [|split]].
  - apply H1. exists (Fin 2). simpl. auto.
  - apply H2. reflexivity.
  - apply H3. discriminate.
  - exact H4.
Defined.

(** On an empty column the four functions return empty outputs (for
    windows that the rolling object accepts, and a loop window of at
    least 1). *)
Theorem empty_column_outputs {label} (df : DataFrame label) col w l1 l2 l3 :
  getitem df col = ret [] ->
  (0 <= w -> sma df col w = ret (mkSeries (df_index df) [] ("sma_" ++ str w))) /\
  (0 <= l1 -> l2 + 1 <> 0 -> l3 + 1 <> 0 ->
   kama df col l1 l2 l3 = ret (mkSeries (df_index df) [] "kama")) /\
  (0 <= w ->
   linear_slope df col w = ret (mkSeries (df_index df) [] ("linear_slope_" ++ str w))) /\
  (1 <= w ->
   linear_slope_and_r2 df col w =
   ret (mkDataFrame (df_index df)
          [("linear_slope_" ++ str w, []); ("linear_r2_" ++ str w, [])])).
Proof.
  intros Hcol. split; [|split; [|split]].
  - intros Hw. rewrite (sma_returns df col w [] Hcol Hw). reflexivity.
  - intros H1 H2 H3. rewrite (kama_returns df col l1 l2 l3 [] Hcol H1 H2 H3).
    reflexivity.
  - intros Hw. unfold linear_slope. rewrite Hcol, bind_ret. unfold rolling.
    destruct (Z.ltb_spec w 0); [lia|]. reflexivity.
  - intros Hw. unfold linear_slope_and_r2. rewrite Hcol, bind_ret.
    unfold range. simpl length.
    replace (Z.to_nat (Z.of_nat 0 - (w - 1))) with 0%nat by lia. reflexivity.
Qed.

Lemma empty_column_outputs_witness :
  let df := close_frame [] in
  sma df "close" 30 = ret (mkSeries [] [] "sma_30") /\
  kama df "close" 10 2 30 = ret (mkSeries [] [] "kama") /\
  linear_slope df "close" 60 = ret (mkSeries [] [] "linear_slope_60") /\
  linear_slope_and_r2 df "close" 60 =
    ret (mkDataFrame [] [("linear_slope_60", []); ("linear_r2_60", [])]).
Proof.
  intros df.
  destruct (empty_column_outputs df "close" 30 10 2 30 eq_refl) as (H1 & H2 & _).
  destruct (empty_column_outputs df "close" 60 10 2 30 eq_refl) as (_ & _ & H3 & H4).
  split; [|split; [|split]].
  - apply H1. lia.
  - apply H2; lia.
  - apply H3. lia.
  - apply H4. lia.
Defined.

(** ** The slope as a function of the data *)





